(** * The aggregation pipeline's cursor source and its planner

    A shallow embedding of
    - [mongo/db/pipeline/field_path.{h,cpp}]            (module [FieldPaths]),
    - [mongo/db/pipeline/dependency_tracker.{h,cpp}]    (module [Dependencies]),
    - [mongo/db/pipeline/document_source_match.cpp]     (module [Match]),
    - [mongo/db/commands/document_source_cursor.cpp]    (module [CursorSource]),
    - [mongo/db/commands/pipeline_d.cpp]                (module [PipelineD]),
    with the properties of the pipeline documentation proved about them.

    C++ exceptions are modelled by the [result] type; member functions that
    mutate their object are state transformers that return the object as it
    is when the call returns or throws. *)

From Stdlib Require Import String Ascii ZArith Lia.
From stdpp Require Import gmap strings list sets.

Local Open Scope string_scope.
Local Open Scope Z_scope.
Local Open Scope nat_scope.

(** ** Exceptions *)

Module Exc.

(** What a call can throw.  [UserException code] is what [uassert(code, msg,
    cond)] throws when [cond] is false; [AssertionFailure] is what
    [verify(cond)] throws; [NotAnObject] is the failure of the BSON library
    when [Obj()] is asked of an element that holds no object.  [OutOfBounds]
    is not a C++ exception: it marks a [vector::operator[]] read past the
    end, where the source has no defined behaviour.  [OutOfFuel] is what a
    loop of the model returns when it is given too few rounds. *)
Inductive Exception : Type :=
| UserException (code : Z)
| AssertionFailure
| Interrupted
| NotAnObject
| OutOfBounds
| OutOfFuel.

(** Spec names of the user errors. *)
Definition InvalidPath : Exception := UserException 15998.
Definition UnsatisfiedDependency : Exception := UserException 15984.
Definition CursorInvalidated : Exception := UserException 16028.
Definition ContractViolation : Exception := AssertionFailure.

Inductive result (A : Type) : Type :=
| Ok (a : A)
| Throw (e : Exception).
Arguments Ok {A} a.
Arguments Throw {A} e.

Definition is_ok {A} (r : result A) : bool :=
  match r with Ok _ => true | Throw _ => false end.

(** A member function of an object of type [S]: it returns or throws, and
    leaves the object in some state either way. *)
Definition M (S A : Type) : Type := S -> result A * S.

Definition ret {S A} (a : A) : M S A := fun s => (Ok a, s).
Definition throw {S A} (e : Exception) : M S A := fun s => (Throw e, s).
Definition bind {S A B} (m : M S A) (k : A -> M S B) : M S B :=
  fun s => match m s with
           | (Ok a, s') => k a s'
           | (Throw e, s') => (Throw e, s')
           end.
Definition get {S} : M S S := fun s => (Ok s, s).
Definition modify {S} (f : S -> S) : M S unit := fun s => (Ok tt, f s).

End Exc.
Import Exc.

Declare Scope cxx_scope.
Delimit Scope cxx_scope with cxx.
Notation "'let*' x ':=' m 'in' k" := (bind m (fun x => k))
  (at level 10, x name, m at level 100, k at level 200) : cxx_scope.
Notation "'do' m 'then' k" := (bind m (fun _ => k))
  (at level 10, m at level 100, k at level 200) : cxx_scope.

(** ** FieldPath *)

Module FieldPaths.

(** [class FieldPath { vector<string> vFieldName; }] *)
Record FieldPath : Type := mkFieldPath { vFieldName : list string }.

#[global] Instance FieldPath_eq_dec : EqDecision FieldPath.
Proof. solve_decision. Defined.
#[global] Instance FieldPath_countable : Countable FieldPath :=
  inj_countable' vFieldName mkFieldPath (fun p => match p with mkFieldPath _ => eq_refl end).

(** [FieldPath::prefix] *)
Definition prefix : string := "$".

(** [string::find(ch, pos)]: the index of the first [ch] at or after [pos];
    [None] is [string::npos]. *)
Fixpoint find (s : string) (ch : ascii) (pos : nat) : option nat :=
  match s with
  | EmptyString => None
  | String a s' =>
      match pos with
      | O => if Ascii.eqb a ch then Some O else option_map S (find s' ch O)
      | S pos' => option_map S (find s' ch pos')
      end
  end.

(** [string::substr(pos, n)], [n = None] for [npos]: at most [n] characters
    from [pos] on.  The constructor below only calls it with
    [pos <= size()], where it does not throw. *)
Definition substr (s : string) (pos : nat) (n : option nat) : string :=
  match n with
  | Some len => String.substring pos len s
  | None => String.substring pos (String.length s) s
  end.

(** The [while(true)] loop of [FieldPath::FieldPath(const string &)].  Every
    round but the last moves [startpos] past a dot, so [S (size())] rounds
    are enough; [fuel] counts them. *)
Fixpoint FieldPath_loop (fuel : nat) (fieldPath : string) (startpos : nat)
    (vFieldName : list string) : result FieldPath :=
  match fuel with
  | O => Throw OutOfFuel
  | S fuel' =>
      (* find the next dot *)
      match find fieldPath "." startpos with
      | None =>
          (* no more dots: use the remainder of the string *)
          Ok (mkFieldPath (vFieldName ++ [substr fieldPath startpos None]))
      | Some dotpos =>
          let length := dotpos - startpos in
          if 0 <? length then
            FieldPath_loop fuel' fieldPath (dotpos + 1)
              (vFieldName ++ [substr fieldPath startpos (Some length)])
          else Throw (UserException 15998)
      end
  end.

(** [FieldPath::FieldPath(const string &fieldPath)] *)
Definition FieldPath_of_string (fieldPath : string) : result FieldPath :=
  FieldPath_loop (S (String.length fieldPath)) fieldPath 0 [].

(** [FieldPath::FieldPath()] *)
Definition FieldPath_default : FieldPath := mkFieldPath [].

(** [FieldPath::FieldPath(const vector<string> &rStrings, size_t n)] *)
Definition FieldPath_of_vector (rStrings : list string) (n : nat) : result FieldPath :=
  if n <=? length rStrings then Ok (mkFieldPath (take n rStrings))
  else Throw AssertionFailure.

(** [FieldPath::getPathLength] *)
Definition getPathLength (p : FieldPath) : nat := length (vFieldName p).


(** The comparison loop of [operator==] over the shortest common length. *)
Fixpoint common_equal (l r : list string) : bool :=
  match l, r with
  | a :: l', b :: r' => if String.eqb a b then common_equal l' r' else false
  | _, _ => true
  end.

(** [FieldPath::operator==] *)
Definition FieldPath_eqb (l r : FieldPath) : bool :=
  if common_equal (vFieldName l) (vFieldName r) then
    if negb (length (vFieldName l) =? length (vFieldName r)) then false else true
  else false.

(** [FieldPath::isPrefixOf]: the argument is a prefix of this path.  Past
    the length test the loop compares the [preLength] first segments, which
    is the shortest common length. *)
Definition isPrefixOf (this rOther : FieldPath) : bool :=
  let preLength := length (vFieldName rOther) in
  if length (vFieldName this) <? preLength then false
  else common_equal (vFieldName this) (vFieldName rOther).

(** The [for] loop of [writePath]: ["." << vFieldName[i]] for [i >= 1]. *)
Fixpoint writeRest (rest : list string) (out : string) : string :=
  match rest with
  | [] => out
  | f :: rest' => writeRest rest' (out ++ "." ++ f)
  end.

(** [FieldPath::writePath(ostream &, bool fieldPrefix)]; the stream is the
    string written so far. *)
Definition writePath (p : FieldPath) (outStream : string) (fieldPrefix : bool)
    : result string :=
  let out := if fieldPrefix then outStream ++ prefix else outStream in
  match vFieldName p with
  | [] => Throw OutOfBounds            (* vFieldName[0] of an empty vector *)
  | f0 :: rest => Ok (writeRest rest (out ++ f0))
  end.

(** [FieldPath::getPath] *)
Definition getPath (p : FieldPath) (fieldPrefix : bool) : result string :=
  writePath p "" fieldPrefix.

End FieldPaths.

(** ** BSON values *)

Module BSON.

(** A BSON element's value, and an object as the sequence of its elements,
    each a field name with a value.  An array is an object whose field names
    are the indices ["0"], ["1"], ... *)
Inductive BSONValue : Type :=
| NumberInt (n : Z)
| Bool (b : bool)
| String_ (s : string)
| Object (embedded : BSONObj)
| Array (embedded : BSONObj)
with BSONObj : Type :=
| BSONObj_end
| BSONObj_element (fieldName : string) (value : BSONValue) (rest : BSONObj).

Scheme BSONValue_mut := Induction for BSONValue Sort Prop
  with BSONObj_mut := Induction for BSONObj Sort Prop.

(** An object from the list of its elements. *)
Fixpoint obj (elements : list (string * BSONValue)) : BSONObj :=
  match elements with
  | [] => BSONObj_end
  | (name, v) :: rest => BSONObj_element name v (obj rest)
  end.

(** [BSONElement::type() == Array] *)
Definition isArray (v : BSONValue) : bool :=
  match v with Array _ => true | _ => false end.

(** [BSONElement::Obj()] of the BSON library: the embedded object of an
    object or an array; it fails on any other element. *)
Definition Obj (v : BSONValue) : result BSONObj :=
  match v with
  | Object o | Array o => Ok o
  | _ => Throw NotAnObject
  end.

End BSON.

(** ** DependencyTracker *)

Module Dependencies.
Import FieldPaths BSON.

(** [const DocumentSource *]: a stage is known to the tracker by its place in
    the pipeline only ([getPipelineStep()]). *)
Abbreviation DocumentSourcePtr := nat.

(** [struct DependencyTracker::Tracker] *)
Record Tracker : Type := mkTracker {
  fieldPath : FieldPath;            (* dependency *)
  pSource : DocumentSourcePtr       (* source of the dependency *)
}.

(** [class DependencyTracker].  The [boost::unordered_map] keyed by
    [FieldPath] (with [FieldPath::operator==]) is a finite map; the order in
    which it is iterated is not fixed by the source (pseudo-random). *)
Record DependencyTracker : Type := mkDependencyTracker {
  openSet : bool;                   (* open/closed result set *)
  map : gmap FieldPath Tracker      (* the dependency map *)
}.

(** [DependencyTracker::DependencyTracker()] and [create()] *)
Definition create : DependencyTracker :=
  {| openSet := true; map := ∅ |}.

(** [DependencyTracker::addDependency] *)
Definition addDependency (rFieldPath : FieldPath) (pS : DocumentSourcePtr)
    (t : DependencyTracker) : DependencyTracker :=
  let tracker := mkTracker rFieldPath pS in
  match map t !! rFieldPath with
  | None =>                         (* map.insert took place *)
      {| openSet := openSet t; map := <[rFieldPath := tracker]> (map t) |}
  | Some old =>                     (* already an entry: update the source *)
      {| openSet := openSet t;
         map := <[rFieldPath := mkTracker (fieldPath old) pS]> (map t) |}
  end.

(** [DependencyTracker::removeDependency] *)
Definition removeDependency (rFieldPath : FieldPath) (t : DependencyTracker)
    : DependencyTracker :=
  {| openSet := openSet t; map := delete rFieldPath (map t) |}.

(** [DependencyTracker::getDependency]; [None] is [NULL]. *)
Definition getDependency (rFieldPath : FieldPath) (t : DependencyTracker)
    : option DocumentSourcePtr :=
  match map t !! rFieldPath with
  | None => None
  | Some i => Some (pSource i)
  end.



(** [DependencyTracker::setClosedSet] *)
Definition setClosedSet (t : DependencyTracker) : DependencyTracker :=
  {| openSet := false; map := map t |}.

(** [DependencyTracker::isClosedSet] *)
Definition isClosedSet (t : DependencyTracker) : bool := negb (openSet t).

(** The loop of [buildSelectList]: one [pBuilder->append(path, true)] for
    each entry; the builder is the list of the elements appended so far. *)
Fixpoint appendPaths (entries : list (FieldPath * Tracker))
    (pBuilder : list (string * BSONValue)) : result (list (string * BSONValue)) :=
  match entries with
  | [] => Ok pBuilder
  | (path, _) :: rest =>
      match writePath path "" false with
      | Ok ss => appendPaths rest (pBuilder ++ [(ss, Bool true)])
      | Throw e => Throw e
      end
  end.

(** [DependencyTracker::buildSelectList] *)
Definition buildSelectList (pBuilder : list (string * BSONValue))
    (t : DependencyTracker) : result (list (string * BSONValue)) :=
  if negb (openSet t) then appendPaths (map_to_list (map t)) pBuilder
  else Throw AssertionFailure.      (* verify(!openSet) *)

(** The operations a pipeline stage can apply to the tracker it is handed. *)
Inductive operation : Type :=
| OpAdd (path : FieldPath) (pS : DocumentSourcePtr)
| OpRemove (path : FieldPath)
| OpGet (path : FieldPath)
| OpBuildSelectList
| OpIsClosed
| OpSetClosed.

(** The tracker after one operation (queries leave it as it is). *)
Definition apply (op : operation) (t : DependencyTracker) : DependencyTracker :=
  match op with
  | OpAdd path pS => addDependency path pS t
  | OpRemove path => removeDependency path t
  | OpSetClosed => setClosedSet t
  | OpGet _ | OpBuildSelectList | OpIsClosed => t
  end.

Definition run (ops : list operation) (t : DependencyTracker) : DependencyTracker :=
  foldl (fun t op => apply op t) t ops.

End Dependencies.

(** ** DocumentSourceMatch: the dependencies of a filter *)

Module Match.
Import FieldPaths Dependencies BSON.
Local Open Scope cxx_scope.

(** [class DependencySink]: the interface [visitDependencies] reports to.
    [dependency(path)] is a member function of the sink. *)
Class DependencySink (S : Type) : Type :=
  dependency : string -> M S unit.

(** ["$or"] or ["$and"]: the negation of
    [strcmp(pFieldName, "$or") && strcmp(pFieldName, "$and")]. *)
Definition isLogical (pFieldName : string) : bool :=
  negb (negb (String.eqb pFieldName "$or") && negb (String.eqb pFieldName "$and")).

Section Visitor.
Context {S : Type} `{DependencySink S}.

(** [DocumentSourceMatch::visitDependencies(pSink, pBsonObj)]: the outer
    loop over the elements of the object and, for [$or] and [$and], the
    inner loop over the operands.  On a logical element the source runs
    [verify(bsonElement.type() == Array)] and then [bsonElement.Obj()],
    which cannot fail on an array; on each operand it runs
    [operandElement.Obj()] and visits the result. *)
Fixpoint visitDependencies (pBsonObj : BSONObj) : M S unit :=
  match pBsonObj with
  | BSONObj_end => ret tt
  | BSONObj_element pFieldName bsonElement rest =>
      do (if negb (isLogical pFieldName) then
            (* not $or or $and: it must be a fieldname *)
            dependency pFieldName
          else
            match bsonElement with
            | Array logicalOperands => visitOperands logicalOperands
            | _ => throw AssertionFailure
            end)
      then visitDependencies rest
  end
with visitOperands (logicalOperands : BSONObj) : M S unit :=
  match logicalOperands with
  | BSONObj_end => ret tt
  | BSONObj_element _ operandElement rest =>
      match operandElement with
      | Object operand | Array operand =>
          do visitDependencies operand then visitOperands rest
      | _ => throw NotAnObject
      end
  end.

End Visitor.

(** [class DocumentSourceMatch::Tracker : public DependencySink] *)
Record MatchTracker : Type := mkMatchTracker {
  pTracker : DependencyTracker;
  pSource : DocumentSourcePtr
}.

(** [DocumentSourceMatch::Tracker::dependency]: build the [FieldPath] (which
    can throw), then add it for this stage. *)
#[global] Instance Tracker_dependency : DependencySink MatchTracker :=
  fun path s =>
    match FieldPath_of_string path with
    | Ok fieldPath =>
        (Ok tt, {| pTracker := addDependency fieldPath (pSource s) (pTracker s);
                   pSource := pSource s |})
    | Throw e => (Throw e, s)
    end.

(** [DocumentSourceMatch::manageDependencies] of the stage [this] with the
    filter [query], on the tracker it is handed. *)
Definition manageDependencies (this : DocumentSourcePtr) (query : BSONObj)
    : M DependencyTracker unit :=
  fun t =>
    let (r, tracker) := visitDependencies query (mkMatchTracker t this) in
    (r, pTracker tracker).

End Match.

(** ** DocumentSourceCursor *)

Module CursorSource.
Import BSON.
Local Open Scope cxx_scope.

(** [DiskLoc]: the identifier of a record. *)
Abbreviation DiskLoc := nat.

(** Modelled from the spec: the physical scan, [class Cursor] of
    [mongo/db/cursor.h], which is not among the sources.  The scan has
    remaining positions ([ok()]), a current record ([currLoc()],
    [current()]), a step ([advance()]), an optional residual predicate
    ([matcher()], [matchesCurrent]) and a duplicate guard ([getsetdup]) that
    answers whether a record identifier was presented to it before and
    remembers it.  [positions] lists the positions the scan still visits,
    the current one first; a position that is visited again after a yield
    appears again.  [reacquired] holds what the coming yields report; past
    its end they succeed. *)
Record Cursor : Type := mkCursor {
  positions : list (DiskLoc * BSONObj);
  matcher : option (DiskLoc * BSONObj -> bool);
  dups : gset DiskLoc;
  reacquired : list bool
}.

(** [Cursor::ok()] *)
Definition ok (c : Cursor) : bool :=
  match positions c with [] => false | _ => true end.

(** [Cursor::advance()] *)
Definition Cursor_advance (c : Cursor) : Cursor :=
  {| positions := tail (positions c); matcher := matcher c;
     dups := dups c; reacquired := reacquired c |}.

(** [Cursor::getsetdup(loc)] *)
Definition getsetdup (loc : DiskLoc) (c : Cursor) : bool * Cursor :=
  (bool_decide (loc ∈ dups c),
   {| positions := positions c; matcher := matcher c;
      dups := {[loc]} ∪ dups c; reacquired := reacquired c |}).

(** Modelled from the spec: [class ClientCursor], the registration of the
    scan; [yieldSometimes] suspends the scan it registers and reports
    whether the scan could be reacquired. *)
Variant QueryOptions : Type := QueryOption_NoCursorTimeout.

Record ClientCursor : Type := mkClientCursor {
  queryOptions : QueryOptions;
  cc_ns : string
}.

Definition yieldSometimes (c : Cursor) : bool * Cursor :=
  match reacquired c with
  | [] => (true, c)
  | cursorOk :: later =>
      (cursorOk, {| positions := positions c; matcher := matcher c;
                    dups := dups c; reacquired := later |})
  end.

(** Modelled from the spec: [class Document], the immutable snapshot that
    [Document::createFromBsonObj] makes of a record. *)
Record Document : Type := mkDocument { snapshot : BSONObj }.
Definition createFromBsonObj (documentObj : BSONObj) : Document :=
  mkDocument documentObj.

(** Modelled from the spec: the part of [class ExpressionContext] the
    cursor uses, the cooperative interruption flag. *)
Record ExpressionContext : Type := mkExpressionContext {
  interrupted : bool
}.

(** What [keepAlive] retains: the [ParsedQuery] the planner built. *)
Record ParsedQuery : Type := mkParsedQuery {
  pq_ns : string;
  pq_filter : BSONObj;
  pq_fields : BSONObj
}.

(** [class DocumentSourceCursor].  [pCursor] and [pClientCursor] share one
    scan; an empty [shared_ptr<BSONObj>] is [None]. *)
Record DocumentSourceCursor : Type := mkDocumentSourceCursor {
  pExpCtx : ExpressionContext;
  pCurrent : option Document;
  ns : string;
  pQuery : option BSONObj;
  pSelect : option BSONObj;
  pSort : option BSONObj;
  pCursor : Cursor;
  pDependencies : list ParsedQuery;
  pClientCursor : ClientCursor
}.

Definition set_pCurrent (d : option Document) (this : DocumentSourceCursor)
    : DocumentSourceCursor :=
  {| pExpCtx := pExpCtx this; pCurrent := d; ns := ns this;
     pQuery := pQuery this; pSelect := pSelect this; pSort := pSort this;
     pCursor := pCursor this; pDependencies := pDependencies this;
     pClientCursor := pClientCursor this |}.

Definition set_pCursor (c : Cursor) (this : DocumentSourceCursor)
    : DocumentSourceCursor :=
  {| pExpCtx := pExpCtx this; pCurrent := pCurrent this; ns := ns this;
     pQuery := pQuery this; pSelect := pSelect this; pSort := pSort this;
     pCursor := c; pDependencies := pDependencies this;
     pClientCursor := pClientCursor this |}.

(** [DocumentSourceCursor::advanceAndYield] *)
Definition advanceAndYield : M DocumentSourceCursor unit :=
  fun this =>
    let (cursorOk, c) := yieldSometimes (Cursor_advance (pCursor this)) in
    (if cursorOk then Ok tt else Throw (UserException 16028), set_pCursor c this).

(** One test of the loop of [findNext] on the current position:
    [(!(pCIM = pCursor->matcher()) || pCIM->matchesCurrent(pCursor.get()))
     && !pCursor->getsetdup(pCursor->currLoc())].
    [getsetdup] is only reached when the left operand holds. *)
Definition accepts (position : DiskLoc * BSONObj) : M DocumentSourceCursor bool :=
  fun this =>
    let matches :=
      match matcher (pCursor this) with
      | None => true
      | Some pCIM => pCIM position
      end in
    if matches then
      let (dup, c) := getsetdup (fst position) (pCursor this) in
      (Ok (negb dup), set_pCursor c this)
    else (Ok false, this).

(** The [while(pCursor->ok())] loop of [findNext].  Every round steps the
    scan, so as many rounds as there are positions left are enough; [fuel]
    counts them.  The branch for [keyFieldsOnly()] is switched off in the
    source ([if (false && pKeyOnly)]), which leaves the branch that takes
    [pCursor->current()]. *)
Fixpoint findNext_loop (fuel : nat) : M DocumentSourceCursor unit :=
  fun this =>
    match positions (pCursor this) with
    | [] =>
        (* !pCursor->ok(): there aren't any more documents *)
        (Ok tt, set_pCurrent None this)
    | position :: _ =>
        match fuel with
        | O => (Throw OutOfFuel, this)
        | S fuel' =>
            (let* accepted := accepts position in
             if (accepted : bool) then
               (* grab the matching document *)
               do modify (set_pCurrent (Some (createFromBsonObj (snd position)))) then
               advanceAndYield
             else
               do advanceAndYield then
               findNext_loop fuel') this
        end
    end.

(** [DocumentSourceCursor::findNext] *)
Definition findNext : M DocumentSourceCursor unit :=
  fun this => findNext_loop (length (positions (pCursor this))) this.

(** Modelled from the spec: [DocumentSource::advance()], the base class's
    part of [advance], which is not among the sources: it checks the
    interruption flag and fails with [Interrupted] when it is set. *)
Definition DocumentSource_advance : M DocumentSourceCursor bool :=
  fun this =>
    if interrupted (pExpCtx this) then (Throw Interrupted, this)
    else (Ok false, this).

(** [if (!pCurrent.get()) findNext();] *)
Definition fetchFirst : M DocumentSourceCursor unit :=
  fun this =>
    match pCurrent this with
    | None => findNext this
    | Some _ => (Ok tt, this)
    end.

(** [DocumentSourceCursor::eof] *)
Definition eof : M DocumentSourceCursor bool :=
  do fetchFirst then
  let* this := get in
  ret (match pCurrent this with None => true | Some _ => false end).

(** [DocumentSourceCursor::advance] *)
Definition advance : M DocumentSourceCursor bool :=
  do DocumentSource_advance then     (* check for interrupts *)
  do fetchFirst then
  do findNext then
  let* this := get in
  ret (match pCurrent this with None => false | Some _ => true end).

(** [DocumentSourceCursor::getCurrent] *)
Definition getCurrent : M DocumentSourceCursor (option Document) :=
  do fetchFirst then
  let* this := get in
  ret (pCurrent this).

(** [DocumentSourceCursor::setSource]: [verify(false)]. *)
Definition setSource {A} (pSource : A) : M DocumentSourceCursor unit :=
  throw AssertionFailure.

(** [DocumentSourceCursor::create] with the constructor it calls. *)
Definition create (pTheCursor : option Cursor) (ns : string)
    (pCtx : ExpressionContext) : result DocumentSourceCursor :=
  match pTheCursor with
  | None => Throw AssertionFailure   (* verify(pCursor.get()) *)
  | Some c =>
      Ok {| pExpCtx := pCtx; pCurrent := None; ns := ns;
            pQuery := None; pSelect := None; pSort := None;
            pCursor := c; pDependencies := [];
            pClientCursor := mkClientCursor QueryOption_NoCursorTimeout ns |}
  end.

(** [setNamespace], [setQuery], [setSelect], [setSort], [keepAlive] *)
Definition setNamespace (n : string) (this : DocumentSourceCursor)
    : DocumentSourceCursor :=
  {| pExpCtx := pExpCtx this; pCurrent := pCurrent this; ns := n;
     pQuery := pQuery this; pSelect := pSelect this; pSort := pSort this;
     pCursor := pCursor this; pDependencies := pDependencies this;
     pClientCursor := pClientCursor this |}.

Definition setQuery (pBsonObj : BSONObj) (this : DocumentSourceCursor)
    : DocumentSourceCursor :=
  {| pExpCtx := pExpCtx this; pCurrent := pCurrent this; ns := ns this;
     pQuery := Some pBsonObj; pSelect := pSelect this; pSort := pSort this;
     pCursor := pCursor this; pDependencies := pDependencies this;
     pClientCursor := pClientCursor this |}.

Definition setSelect (pBsonObj : BSONObj) (this : DocumentSourceCursor)
    : DocumentSourceCursor :=
  {| pExpCtx := pExpCtx this; pCurrent := pCurrent this; ns := ns this;
     pQuery := pQuery this; pSelect := Some pBsonObj; pSort := pSort this;
     pCursor := pCursor this; pDependencies := pDependencies this;
     pClientCursor := pClientCursor this |}.

Definition setSort (pBsonObj : BSONObj) (this : DocumentSourceCursor)
    : DocumentSourceCursor :=
  {| pExpCtx := pExpCtx this; pCurrent := pCurrent this; ns := ns this;
     pQuery := pQuery this; pSelect := pSelect this; pSort := Some pBsonObj;
     pCursor := pCursor this; pDependencies := pDependencies this;
     pClientCursor := pClientCursor this |}.

Definition keepAlive (pVoid : ParsedQuery) (this : DocumentSourceCursor)
    : DocumentSourceCursor :=
  {| pExpCtx := pExpCtx this; pCurrent := pCurrent this; ns := ns this;
     pQuery := pQuery this; pSelect := pSelect this; pSort := pSort this;
     pCursor := pCursor this; pDependencies := pDependencies this ++ [pVoid];
     pClientCursor := pClientCursor this |}.

End CursorSource.

(** ** PipelineD: the planner *)

Module PipelineD.
Import FieldPaths BSON Dependencies CursorSource.
Local Open Scope cxx_scope.

(** The stages of a pipeline, by what the planner asks of them: is it a
    [DocumentSourceMatch] (with its filter), is it a [DocumentSourceSort]
    (with the key [sortKeyToBson(pBuilder, false)] builds), or neither. *)
Inductive DocumentSource : Type :=
| DocumentSourceMatch (query : BSONObj)
| DocumentSourceSort (sortKey : BSONObj)
| DocumentSourceOther (sourceName : string).

(** One call of [NamespaceDetailsTransient::getCursor]. *)
Record Acquisition : Type := mkAcquisition {
  acq_ns : string;
  acq_query : BSONObj;
  acq_order : option BSONObj         (* [None]: the call without a sort *)
}.

(** What the planner works on: the pipeline's [sourceVector], which it
    shortens in place, and the calls of [getCursor] made so far. *)
Record Planning : Type := mkPlanning {
  collectionName : string;
  sourceVector : list DocumentSource;
  acquisitions : list Acquisition
}.

(** [pSources->erase(pSources->begin())] *)
Definition erase_begin : M Planning unit :=
  modify (fun p => {| collectionName := collectionName p;
                      sourceVector := tail (sourceVector p);
                      acquisitions := acquisitions p |}).

(** Modelled from the spec: [Pipeline::getInitialQuery] of
    [mongo/db/commands/pipeline.cpp], which is not among the sources: when
    the first stage is a filter stage, the builder receives its filter
    ([toMatcherBson]) and the answer is true. *)
Definition getInitialQuery (p : Planning) : option BSONObj :=
  match sourceVector p with
  | DocumentSourceMatch query :: _ => Some query
  | _ => None
  end.

Section Planner.

(** [NamespaceDetailsTransient::getCursor(ns, query[, order])]: the scan the
    storage layer hands out, or no scan. *)
Variable getCursor : string -> BSONObj -> option BSONObj -> option Cursor.

(** [manageDependencies] of the stages whose sources are not at hand. *)
Variable manageOther :
  DocumentSource -> DocumentSourcePtr -> M DependencyTracker unit.

(** [DocumentSource::manageDependencies], a virtual function. *)
Definition manageDependencies (pTemp : DocumentSource) (step : DocumentSourcePtr)
    : M DependencyTracker unit :=
  match pTemp with
  | DocumentSourceMatch query => Match.manageDependencies step query
  | _ => manageOther pTemp step
  end.

(** The loop over [rbegin() .. rend()]: the stages from the last one to the
    first one, each with its place in the pipeline. *)
Fixpoint manageAll (reversed : list (nat * DocumentSource))
    : M DependencyTracker unit :=
  match reversed with
  | [] => ret tt
  | (step, pTemp) :: earlier =>
      do manageDependencies pTemp step then manageAll earlier
  end.

Definition analyze (sources : list DocumentSource) : result unit * DependencyTracker :=
  manageAll (rev (imap pair sources)) Dependencies.create.

(** A call of [getCursor], noted. *)
Definition acquire (ns : string) (query : BSONObj) (order : option BSONObj)
    : M Planning (option Cursor) :=
  fun p => (Ok (getCursor ns query order),
            {| collectionName := collectionName p;
               sourceVector := sourceVector p;
               acquisitions := acquisitions p ++ [mkAcquisition ns query order] |}).

(** A result or an exception of a call that leaves the pipeline alone. *)
Definition lift {A} (r : result A) : M Planning A := fun p => (r, p).

(** [PipelineD::prepareCursorSource(pPipeline, dbName, pExpCtx)] *)
Definition prepareCursorSource (dbName : string) (pExpCtx : ExpressionContext)
    : M Planning DocumentSourceCursor :=
  (* analyze dependency information *)
  let* pSources := get in
  let* pTracker :=
    (fun p => match analyze (sourceVector pSources) with
              | (Ok _, t) => (Ok t, p)
              | (Throw e, _) => (Throw e, p)
              end) in
  (* look for an initial match *)
  let* pPipeline := get in
  let initQuery := getInitialQuery pPipeline in
  do (match initQuery with
      | Some _ => erase_begin       (* the cursor will apply the match *)
      | None => ret tt
      end) then
  let pQueryObj := match initQuery with Some query => query | None => BSONObj_end end in
  (* the select-list *)
  let* selectBuilder :=
    lift (if isClosedSet pTracker then buildSelectList [] pTracker else Ok []) in
  let pSelectObj := obj selectBuilder in
  let fullName := dbName ++ "." ++ collectionName pPipeline in
  let pParsedQuery := mkParsedQuery fullName pQueryObj pSelectObj in
  (* look for an initial sort *)
  let* pPipeline := get in
  let pSort :=
    match sourceVector pPipeline with
    | DocumentSourceSort sortKey :: _ => Some sortKey
    | _ => None
    end in
  let pSortObj := match pSort with Some sortKey => sortKey | None => BSONObj_end end in
  (* create the cursor *)
  let* sorted :=
    (match pSort with
     | Some _ =>
         (* try to create the cursor with the query and the sort *)
         let* pSortedCursor := acquire fullName pQueryObj (Some pSortObj) in
         match pSortedCursor with
         | Some _ =>
             (* success: remove the sort from the pipeline *)
             do erase_begin then ret (pSortedCursor, true)
         | None => ret (None, false)
         end
     | None => ret (None, false)
     end) in
  let initSort := snd sorted in
  let* pCursor :=
    (match fst sorted with
     | Some _ => ret (fst sorted)
     | None =>
         (* try to create the cursor without the sort *)
         acquire fullName pQueryObj None
     end) in
  (* wrap the cursor with a DocumentSource and return that *)
  let* pSource := lift (create pCursor dbName pExpCtx) in
  let pSource := setNamespace fullName pSource in
  let pSource := setQuery pQueryObj pSource in
  let pSource := setSelect pSelectObj pSource in
  let pSource := if (initSort : bool) then setSort pSortObj pSource else pSource in
  let pSource := keepAlive pParsedQuery pSource in
  ret pSource.

End Planner.

End PipelineD.

(** * Properties *)

(** ** FieldPath: construction and rendering *)

Module FieldPathFacts.
Import FieldPaths.
#[local] Arguments String.append !s1 s2 : simpl nomatch.

(** The segments of a dotted string, in the documentation's words: the
    maximal runs between dots, the leading and the trailing run included. *)
Fixpoint segments (s : string) : list string :=
  match s with
  | EmptyString => [EmptyString]
  | String c s' =>
      if Ascii.eqb c "." then EmptyString :: segments s'
      else match segments s' with
           | seg :: rest => String c seg :: rest
           | [] => [String c EmptyString]
           end
  end.

(** The segments joined by dots again. *)
Fixpoint dotted (segs : list string) : string :=
  match segs with
  | [] => EmptyString
  | [seg] => seg
  | seg :: rest => seg ++ "." ++ dotted rest
  end.

Definition has_empty (segs : list string) : bool :=
  existsb (fun seg => String.eqb seg EmptyString) segs.

Lemma segments_nonempty s : segments s <> [].
Proof.
  destruct s as [|c s]; simpl; [discriminate|].
  destruct (Ascii.eqb c "."); [discriminate|].
  destruct (segments s); discriminate.
Qed.

Lemma dotted_segments s : dotted (segments s) = s.
Proof.
  induction s as [|c s IH]; simpl; [reflexivity|].
  destruct (Ascii.eqb_spec c ".") as [->|Hc].
  - pose proof (segments_nonempty s) as Hne.
    simpl. destruct (segments s) as [|seg rest]; [congruence|].
    rewrite IH. reflexivity.
  - pose proof (segments_nonempty s) as Hne.
    destruct (segments s) as [|seg rest]; [congruence|].
    destruct rest as [|seg' rest]; simpl in *; rewrite <- IH; reflexivity.
Qed.

Lemma append_assoc (a b c : string) : ((a ++ b) ++ c = a ++ (b ++ c))%string.
Proof. induction a; simpl; congruence. Qed.

Lemma append_length (a b : string) :
  String.length (a ++ b) = String.length a + String.length b.
Proof. induction a; simpl; congruence. Qed.

Lemma append_empty_r (a : string) : (a ++ "")%string = a.
Proof. induction a; simpl; congruence. Qed.

(** [find] from a position inside the string sees the suffix only. *)
Lemma find_append pre suf ch :
  find (pre ++ suf) ch (String.length pre)
  = option_map (fun k => String.length pre + k) (find suf ch 0).
Proof.
  induction pre as [|a pre IH]; simpl.
  - destruct (find suf ch 0); reflexivity.
  - rewrite IH. destruct (find suf ch 0); reflexivity.
Qed.

(** No dot: the string is its only segment. *)
Lemma find_None_segments s : find s "." 0 = None -> segments s = [s].
Proof.
  induction s as [|c s IH]; simpl; [reflexivity|].
  destruct (Ascii.eqb c "."); [discriminate|].
  destruct (find s "." 0); [discriminate|].
  intros _. rewrite IH; reflexivity.
Qed.

(** A first dot at [k]: the [k] characters before it are the first segment. *)
Lemma find_Some_segments s k :
  find s "." 0 = Some k ->
  exists seg s', s = (seg ++ String "." s')%string /\ String.length seg = k /\
                 segments s = seg :: segments s'.
Proof.
  revert k. induction s as [|c s IH]; simpl; intros k; [discriminate|].
  destruct (Ascii.eqb_spec c ".") as [->|Hc].
  - intros [= <-]. exists EmptyString, s. auto.
  - destruct (find s "." 0) as [k'|] eqn:Hf; [|discriminate].
    intros [= <-]. destruct (IH k' eq_refl) as (seg & s' & -> & Hlen & Hseg).
    exists (String c seg), s'. rewrite Hseg. simpl. auto.
Qed.

Lemma substring_append_skip pre s n :
  String.substring (String.length pre) n (pre ++ s) = String.substring 0 n s.
Proof.
  induction pre as [|a pre IH]; simpl; [reflexivity|].
  rewrite IH. reflexivity.
Qed.

Lemma substring_prefix seg rest :
  String.substring 0 (String.length seg) (seg ++ rest) = seg.
Proof.
  induction seg as [|a seg IH]; simpl.
  - destruct rest; reflexivity.
  - rewrite IH. reflexivity.
Qed.

Lemma substring_all s n :
  String.length s <= n -> String.substring 0 n s = s.
Proof.
  revert n. induction s as [|a s IH]; intros n Hn; simpl in *.
  - destruct n; reflexivity.
  - destruct n as [|n]; [lia|]. rewrite IH by lia. reflexivity.
Qed.

(** The loop, started behind [pre] with the segments [acc] found so far,
    splits the rest [suf] of the string into its segments, and throws when one
    of them that is followed by a dot is empty. *)
Lemma FieldPath_loop_segments fuel pre suf acc :
  String.length suf < fuel ->
  FieldPath_loop fuel (pre ++ suf) (String.length pre) acc
  = if has_empty (removelast (segments suf)) then Throw (UserException 15998)
    else Ok (mkFieldPath (acc ++ segments suf)).
Proof.
  revert pre suf acc.
  induction fuel as [|fuel IH]; intros pre suf acc Hfuel; [lia|].
  simpl. rewrite find_append.
  destruct (find suf "." 0) as [k|] eqn:Hf; simpl.
  - destruct (find_Some_segments _ _ Hf) as (seg & s' & -> & Hlen & Hseg).
    rewrite Hseg.
    pose proof (segments_nonempty s') as Hne.
    replace (removelast (seg :: segments s')) with (seg :: removelast (segments s'))
      by (simpl; destruct (segments s'); [congruence|reflexivity]).
    replace (String.length pre + k - String.length pre) with k by lia.
    destruct k as [|k].
    + destruct seg; [|discriminate]. reflexivity.
    + replace (0 <? S k) with true by reflexivity.
      rewrite substring_append_skip, <- Hlen, substring_prefix.
      assert (Hseg_ne : String.eqb seg EmptyString = false)
        by (destruct seg; [discriminate|reflexivity]).
      simpl has_empty. rewrite Hseg_ne. simpl orb.
      replace (pre ++ seg ++ String "." s')%string
        with ((pre ++ seg ++ ".") ++ s')%string
        by (rewrite !append_assoc; reflexivity).
      replace (String.length pre + String.length seg + 1)
        with (String.length (pre ++ seg ++ "."))
        by (rewrite !append_length; simpl; lia).
      rewrite IH by (rewrite append_length in Hfuel; simpl in Hfuel; lia).
      rewrite <- app_assoc. reflexivity.
  - rewrite (find_None_segments _ Hf). simpl.
    rewrite substring_append_skip, substring_all
      by (rewrite append_length; lia).
    reflexivity.
Qed.

(** What the constructor does with every string: it throws 15998 when a
    segment that is followed by a dot is empty, and otherwise holds the
    segments of the string, whatever the last one is. *)
Lemma FieldPath_of_string_segments s :
  FieldPath_of_string s
  = if has_empty (removelast (segments s)) then Throw InvalidPath
    else Ok (mkFieldPath (segments s)).
Proof.
  unfold FieldPath_of_string.
  apply (FieldPath_loop_segments (S (String.length s)) EmptyString s []). lia.
Qed.

Lemma writeRest_dotted rest out :
  writeRest rest out = (out ++ match rest with
                               | [] => EmptyString
                               | _ => "." ++ dotted rest
                               end)%string.
Proof.
  revert out. induction rest as [|f rest IH]; intros out; simpl.
  - symmetry. apply append_empty_r.
  - rewrite IH. destruct rest as [|f' rest]; simpl;
      rewrite ?append_empty_r, ?append_assoc; reflexivity.
Qed.

(** Rendering a path with at least one segment joins its segments. *)
Lemma getPath_dotted f0 rest :
  getPath (mkFieldPath (f0 :: rest)) false = Ok (dotted (f0 :: rest)).
Proof.
  unfold getPath, writePath. simpl vFieldName. cbv iota beta.
  rewrite writeRest_dotted. destruct rest; simpl.
  - rewrite append_empty_r. reflexivity.
  - reflexivity.
Qed.

Lemma has_empty_false segs :
  Forall (fun seg => seg <> EmptyString) segs -> has_empty segs = false.
Proof.
  induction 1 as [|seg segs Hseg _ IH]; simpl; [reflexivity|].
  rewrite IH. destruct seg; [congruence|reflexivity].
Qed.

Lemma Forall_removelast {A} (P : A -> Prop) l :
  Forall P l -> Forall P (removelast l).
Proof.
  induction 1 as [|x l Hx Hl IH]; simpl; [constructor|].
  destruct l; [constructor|]. constructor; assumption.
Qed.

(** [operator==] decides equality of the segment vectors, which is what
    lets the tracker's [unordered_map] be read as a finite map. *)
Lemma FieldPath_eqb_eq l r : FieldPath_eqb l r = true <-> l = r.
Proof.
  destruct l as [l], r as [r]. unfold FieldPath_eqb. simpl.
  split.
  - revert r. induction l as [|a l IH]; intros [|b r]; simpl; try discriminate.
    + reflexivity.
    + destruct (String.eqb_spec a b) as [->|]; [|discriminate].
      intros H. f_equal. f_equal.
      assert (Hlr : mkFieldPath l = mkFieldPath r) by (apply IH; exact H).
      congruence.
  - intros [= ->]. induction r as [|b r IH]; simpl; [reflexivity|].
    rewrite String.eqb_refl. exact IH.
Qed.

(** C3 (as documented, not as coded): a string whose last segment is empty
    has an empty segment, and yet the constructor accepts it, where the
    documentation wants [InvalidPath]: ["a."] becomes the two segments ["a"]
    and [""], and the empty string becomes the one segment [""]. *)
Theorem FieldPath_of_string_trailing_empty :
  has_empty (segments "a.") = true /\
  FieldPath_of_string "a." = Ok (mkFieldPath ["a"; EmptyString]) /\
  has_empty (segments EmptyString) = true /\
  FieldPath_of_string EmptyString = Ok (mkFieldPath [EmptyString]).
Proof. repeat split; reflexivity. Qed.

(** C9: for a dotted string all of whose segments are non-empty, the
    constructor succeeds with these segments, and [getPath(false)] of the
    path gives the string back. *)
Theorem getPath_FieldPath_of_string (s : string) :
  Forall (fun seg => seg <> EmptyString) (segments s) ->
  exists p, FieldPath_of_string s = Ok p /\
            vFieldName p = segments s /\
            getPath p false = Ok s.
Proof.
  intros Hsegs. exists (mkFieldPath (segments s)).
  rewrite FieldPath_of_string_segments.
  rewrite (has_empty_false _ (Forall_removelast _ _ Hsegs)).
  split; [reflexivity|]. split; [reflexivity|].
  pose proof (segments_nonempty s) as Hne.
  pose proof (dotted_segments s) as Hd.
  destruct (segments s) as [|f0 rest]; [congruence|].
  rewrite getPath_dotted, Hd. reflexivity.
Qed.

Lemma getPath_FieldPath_of_string_witness :
  exists p, FieldPath_of_string "a.b.c" = Ok p /\
            vFieldName p = segments "a.b.c" /\
            getPath p false = Ok "a.b.c".
Proof.
  apply (getPath_FieldPath_of_string "a.b.c").
  simpl. repeat constructor; discriminate.
Defined.

(** C10: a path without segments can be built, by the default constructor
    and by the prefix constructor with [n = 0]; rendering it reads
    [vFieldName[0]] out of bounds; every path with a segment renders. *)
Theorem writePath_needs_a_segment (outStream : string) (fieldPrefix : bool) :
  getPathLength FieldPath_default = 0 /\
  writePath FieldPath_default outStream fieldPrefix = Throw OutOfBounds /\
  getPath FieldPath_default fieldPrefix = Throw OutOfBounds /\
  (forall rStrings, exists p,
      FieldPath_of_vector rStrings 0 = Ok p /\ getPathLength p = 0 /\
      writePath p outStream fieldPrefix = Throw OutOfBounds /\
      getPath p fieldPrefix = Throw OutOfBounds) /\
  (forall p, 1 <= getPathLength p ->
      (exists out, writePath p outStream fieldPrefix = Ok out) /\
      (exists path, getPath p fieldPrefix = Ok path)).
Proof.
  split; [reflexivity|]. split; [reflexivity|]. split; [reflexivity|]. split.
  - intros rStrings. exists (mkFieldPath []).
    unfold FieldPath_of_vector. simpl. rewrite take_0. auto.
  - intros [[|f0 rest]]; unfold getPathLength; simpl; [lia|]. intros _.
    unfold getPath, writePath. simpl. eauto.
Qed.

End FieldPathFacts.

(** ** DependencyTracker: the closed flag and the tracked paths *)

Module DependencyFacts.
Import FieldPaths Dependencies.

Lemma openSet_addDependency path pS t :
  openSet (addDependency path pS t) = openSet t.
Proof. unfold addDependency. destruct (map t !! path); reflexivity. Qed.

Lemma openSet_apply op t :
  openSet (apply op t) = if op is OpSetClosed then false else openSet t.
Proof. destruct op; simpl; auto using openSet_addDependency. Qed.

Lemma isClosedSet_apply op t :
  isClosedSet t = true -> isClosedSet (apply op t) = true.
Proof.
  unfold isClosedSet. rewrite openSet_apply.
  destruct op; auto.
Qed.

Lemma run_snoc ops op t : run (ops ++ [op]) t = apply op (run ops t).
Proof. unfold run. rewrite foldl_app. reflexivity. Qed.

Lemma isClosedSet_run ops t :
  isClosedSet (run ops t) = true <-> isClosedSet t = true \/ OpSetClosed ∈ ops.
Proof.
  induction ops as [|op ops IH] using rev_ind.
  - simpl. split; [auto|]. intros [H|H]; [exact H|]. inversion H.
  - rewrite run_snoc. unfold isClosedSet in *. rewrite openSet_apply.
    rewrite elem_of_app, list_elem_of_singleton.
    destruct op; try (rewrite IH; clear IH; split;
      [intros [H|H]; auto | intros [H|[H|H]]; auto; discriminate]).
    simpl. split; auto.
Qed.

(** The paths tracked after [addDependency]. *)
Lemma dom_addDependency path pS t :
  dom (map (addDependency path pS t)) = {[path]} ∪ dom (map t).
Proof.
  unfold addDependency. destruct (map t !! path); simpl; apply dom_insert_L.
Qed.

(** After [addDependency] the path is tracked for the stage that was named
    last. *)
Lemma getDependency_addDependency path pS t :
  getDependency path (addDependency path pS t) = Some pS.
Proof.
  unfold getDependency, addDependency.
  destruct (map t !! path); simpl; rewrite lookup_insert_eq; reflexivity.
Qed.

Lemma getDependency_addDependency_ne path path' pS t :
  path <> path' ->
  getDependency path' (addDependency path pS t) = getDependency path' t.
Proof.
  intros Hne. unfold getDependency, addDependency.
  destruct (map t !! path); simpl; rewrite lookup_insert_ne by exact Hne;
    reflexivity.
Qed.

(** C7: the tracker starts open; [setClosedSet] closes it and does nothing
    to a closed tracker; no operation opens a closed tracker again, alone or
    in any sequence; [isClosedSet] is the negation of the flag, so that a
    tracker that started open is closed exactly when [setClosedSet] was
    among the operations applied to it. *)
Theorem closed_set_is_monotonic :
  isClosedSet create = false /\
  (forall t, isClosedSet (setClosedSet t) = true) /\
  (forall t, isClosedSet t = true -> setClosedSet t = t) /\
  (forall t, setClosedSet (setClosedSet t) = setClosedSet t) /\
  (forall op t, isClosedSet t = true -> isClosedSet (apply op t) = true) /\
  (forall ops t, isClosedSet t = true -> isClosedSet (run ops t) = true) /\
  (forall t, isClosedSet t = negb (openSet t)) /\
  (forall ops, isClosedSet (run ops create) = true <-> OpSetClosed ∈ ops).
Proof.
  repeat split; try reflexivity.
  - intros [[] m]; [discriminate | reflexivity].
  - intros op t H. apply isClosedSet_apply. exact H.
  - intros ops t H. apply isClosedSet_run. left. exact H.
  - intros H. apply isClosedSet_run in H. destruct H as [H|H]; [discriminate|exact H].
  - intros H. apply isClosedSet_run. right. exact H.
Qed.

End DependencyFacts.

(** ** The match stage's dependency visitor *)

Module MatchFacts.
Import FieldPaths BSON Dependencies Match.

(** What the visitor does with the value of a logical element, and with an
    operand, in terms of [type()] and [Obj()]. *)
Lemma logical_element_Obj (v : BSONValue) :
  match v with
  | Array logicalOperands => Ok logicalOperands
  | _ => Throw AssertionFailure
  end = if isArray v then Obj v else Throw AssertionFailure.
Proof. destruct v; reflexivity. Qed.

Lemma operand_Obj (v : BSONValue) :
  Obj v = match v with
          | Object operand | Array operand => Ok operand
          | _ => Throw NotAnObject
          end.
Proof. reflexivity. Qed.

(** The field keys of a filter, in the documentation's words: each key that
    is not [$or] or [$and], and for [$or] and [$and] the field keys of each
    child clause of its array; in the order of the filter. *)
Fixpoint fieldKeys (filter : BSONObj) : list string :=
  match filter with
  | BSONObj_end => []
  | BSONObj_element key v rest =>
      (if isLogical key then
         match v with
         | Array clauses => clauseKeys clauses
         | _ => []
         end
       else [key]) ++ fieldKeys rest
  end
with clauseKeys (clauses : BSONObj) : list string :=
  match clauses with
  | BSONObj_end => []
  | BSONObj_element _ clause rest =>
      match clause with
      | Object o | Array o => fieldKeys o
      | _ => []
      end ++ clauseKeys rest
  end.

(** A filter whose [$or] and [$and] hold arrays of sub-filters, each an
    object, at every depth. *)
Fixpoint wellFormed (filter : BSONObj) : bool :=
  match filter with
  | BSONObj_end => true
  | BSONObj_element key v rest =>
      (if isLogical key then
         match v with
         | Array clauses => wellFormedClauses clauses
         | _ => false
         end
       else true) && wellFormed rest
  end
with wellFormedClauses (clauses : BSONObj) : bool :=
  match clauses with
  | BSONObj_end => true
  | BSONObj_element _ clause rest =>
      match clause with
      | Object o => wellFormed o
      | _ => false
      end && wellFormedClauses rest
  end.

(** *** The visitor, for any sink *)

Section Sink.
Context {S : Type} `{DependencySink S}.

(** What a call of the sink that returns has done to the sink. *)
Variable reg : S -> string -> S.

(** A call of the sink returns, or throws and leaves the sink as it was. *)
Hypothesis dependency_outcome :
  forall key s,
    dependency key s = (Ok tt, reg s key) \/ exists e, dependency key s = (Throw e, s).

(** A key the sink takes. *)
Definition accepted (key : string) : Prop :=
  forall s, dependency key s = (Ok tt, reg s key).

(** The sink after calls for [keys], in this order, that returned. *)
Definition registered (keys : list string) (s : S) : S := foldl reg s keys.

Lemma registered_app keys keys' s :
  registered (keys ++ keys') s = registered keys' (registered keys s).
Proof. unfold registered. rewrite foldl_app. reflexivity. Qed.

(** On a well-formed filter whose field keys the sink takes, the visitor
    returns, with the sink called for the field keys in order; the same for
    the loop over the clauses. *)
Lemma visit_wellFormed :
  forall filter,
    (wellFormed filter = true -> Forall accepted (fieldKeys filter) ->
     forall s, visitDependencies filter s = (Ok tt, registered (fieldKeys filter) s)) /\
    (wellFormedClauses filter = true -> Forall accepted (clauseKeys filter) ->
     forall s, visitOperands filter s = (Ok tt, registered (clauseKeys filter) s)).
Proof.
  apply (BSONObj_mut
    (fun v => match v with
              | Object o | Array o =>
                  wellFormed o = true -> Forall accepted (fieldKeys o) ->
                  forall s, visitDependencies o s = (Ok tt, registered (fieldKeys o) s)
              | _ => True
              end /\
              match v with
              | Array o =>
                  wellFormedClauses o = true -> Forall accepted (clauseKeys o) ->
                  forall s, visitOperands o s = (Ok tt, registered (clauseKeys o) s)
              | _ => True
              end)).
  - auto.
  - auto.
  - auto.
  - intros o [IH _]. auto.
  - intros o [IH IH']. auto.
  - split; intros _ _ s; reflexivity.
  - intros key v [IHv IHv'] rest [IHrest IHrest']. split.
    + simpl. intros Hwf Hkeys s.
      apply andb_true_iff in Hwf as [Hwfv Hwfrest].
      apply Forall_app in Hkeys as [Hkv Hkrest].
      rewrite registered_app. unfold bind.
      destruct (isLogical key); simpl.
      * destruct v; try discriminate.
        rewrite (IHv' Hwfv Hkv). apply IHrest; assumption.
      * apply Forall_cons in Hkv as [Hk _].
        rewrite (Hk s). apply IHrest; assumption.
    + simpl. intros Hwf Hkeys s.
      apply andb_true_iff in Hwf as [Hwfv Hwfrest].
      apply Forall_app in Hkeys as [Hkv Hkrest].
      rewrite registered_app.
      destruct v; try discriminate; unfold bind;
        rewrite (IHv Hwfv Hkv); apply IHrest'; assumption.
Qed.

(** Whether a run of the visitor returns or throws, the calls of the sink
    that returned by then are a prefix of [keys], and all of them when the
    run returns. *)
Definition visited (keys : list string) (run : M S unit) : Prop :=
  forall s, exists done_,
    done_ `prefix_of` keys /\
    (run s).2 = registered done_ s /\
    ((run s).1 = Ok tt -> done_ = keys).

Lemma visited_ret : visited [] (ret tt).
Proof. intros s. exists []. split; [reflexivity|]. simpl. auto. Qed.

Lemma visited_throw keys e : visited keys (throw e).
Proof.
  intros s. exists []. split; [apply prefix_nil|]. simpl.
  split; [reflexivity|discriminate].
Qed.

Lemma visited_bind keys keys' (m k : M S unit) :
  visited keys m -> visited keys' k -> visited (keys ++ keys') (bind m (fun _ => k)).
Proof.
  intros Hm Hk s. unfold bind.
  destruct (Hm s) as (d & Hd & Hs & Hok).
  destruct (m s) as [[[]|e] s1] eqn:Hms; simpl in *.
  - rewrite (Hok eq_refl) in *. subst s1.
    destruct (Hk (registered keys s)) as (d' & Hd' & Hs' & Hok').
    exists (keys ++ d')%list. split; [apply prefix_app, Hd'|].
    rewrite registered_app. split; [exact Hs'|].
    intros Hrun. rewrite (Hok' Hrun). reflexivity.
  - exists d. split; [apply prefix_app_r, Hd|].
    split; [exact Hs|discriminate].
Qed.

Lemma visited_dependency key : visited [key] (dependency key).
Proof.
  intros s. destruct (dependency_outcome key s) as [->|[e ->]]; simpl.
  - exists [key]. auto.
  - exists []. split; [apply prefix_nil|]. split; [reflexivity|discriminate].
Qed.

Lemma visit_any_outcome :
  forall filter,
    visited (fieldKeys filter) (visitDependencies filter) /\
    visited (clauseKeys filter) (visitOperands filter).
Proof.
  apply (BSONObj_mut
    (fun v => match v with
              | Object o | Array o =>
                  visited (fieldKeys o) (visitDependencies o) /\
                  visited (clauseKeys o) (visitOperands o)
              | _ => True
              end)); auto.
  - split; apply visited_ret.
  - intros key v IHv rest [IHrest IHrest']. split; simpl.
    + apply visited_bind; [|exact IHrest].
      destruct (isLogical key); simpl.
      * destruct v; try apply visited_throw. apply IHv.
      * apply visited_dependency.
    + destruct v; try apply visited_throw;
        (apply visited_bind; [apply IHv|exact IHrest']).
Qed.

End Sink.

(** [$or] and [$and] are never among the field keys. *)
Lemma fieldKeys_not_logical :
  forall filter,
    Forall (fun key => isLogical key = false) (fieldKeys filter) /\
    Forall (fun key => isLogical key = false) (clauseKeys filter).
Proof.
  apply (BSONObj_mut
    (fun v => match v with
              | Object o | Array o =>
                  Forall (fun key => isLogical key = false) (fieldKeys o) /\
                  Forall (fun key => isLogical key = false) (clauseKeys o)
              | _ => True
              end)); auto.
  intros key v IHv rest [IHrest IHrest']. split; simpl.
  - apply Forall_app. split; [|exact IHrest].
    destruct (isLogical key) eqn:Hkey.
    + destruct v; try constructor. apply IHv.
    + constructor; [exact Hkey|constructor].
  - apply Forall_app. split; [|exact IHrest'].
    destruct v; try constructor; apply IHv.
Qed.

(** *** A sink that notes its calls *)

#[global] Instance Recorder_dependency : DependencySink (list string) :=
  fun path calls => (Ok tt, (calls ++ [path])%list).

Definition noted (calls : list string) (path : string) : list string :=
  (calls ++ [path])%list.

Lemma Recorder_outcome key (calls : list string) :
  dependency key calls = (Ok tt, noted calls key) \/
  exists e, dependency key calls = (Throw e, calls).
Proof. left. reflexivity. Qed.

Lemma registered_noted keys calls : registered noted keys calls = (calls ++ keys)%list.
Proof.
  revert calls. induction keys as [|key keys IH]; intros calls; simpl.
  - rewrite app_nil_r. reflexivity.
  - unfold registered in *. simpl. rewrite IH. unfold noted.
    rewrite <- app_assoc. reflexivity.
Qed.

(** *** The sink of the match stage *)

(** A key a [FieldPath] can be built from. *)
Definition validKey (key : string) : Prop :=
  is_ok (FieldPath_of_string key) = true.

(** The tracker after the dependency on [key] is added for the stage
    [this]. *)
Definition register (this : DocumentSourcePtr) (t : DependencyTracker)
    (key : string) : DependencyTracker :=
  match FieldPath_of_string key with
  | Ok path => addDependency path this t
  | Throw _ => t
  end.

Definition registerAll (this : DocumentSourcePtr) (keys : list string)
    (t : DependencyTracker) : DependencyTracker :=
  foldl (register this) t keys.

(** The paths of the keys that have one. *)
Definition pathsOf (keys : list string) : list FieldPath :=
  omap (fun key => match FieldPath_of_string key with
                   | Ok path => Some path
                   | Throw _ => None
                   end) keys.

Definition tracked (s : MatchTracker) (key : string) : MatchTracker :=
  {| pTracker := register (pSource s) (pTracker s) key; pSource := pSource s |}.

Lemma Tracker_outcome key (s : MatchTracker) :
  dependency key s = (Ok tt, tracked s key) \/
  exists e, dependency key s = (Throw e, s).
Proof.
  unfold dependency, Tracker_dependency, tracked, register.
  destruct (FieldPath_of_string key) as [path|e]; eauto.
Qed.

Lemma Tracker_accepted key : validKey key -> accepted tracked key.
Proof.
  unfold validKey, accepted, dependency, Tracker_dependency, tracked, register.
  intros Hkey s. destruct (FieldPath_of_string key); [reflexivity|discriminate].
Qed.

Lemma registered_tracked keys s :
  registered tracked keys s
  = {| pTracker := registerAll (pSource s) keys (pTracker s); pSource := pSource s |}.
Proof.
  revert s. induction keys as [|key keys IH]; intros s.
  - destruct s; reflexivity.
  - unfold registered in *. simpl. rewrite IH. reflexivity.
Qed.

Lemma dom_registerAll this keys t :
  dom (map (registerAll this keys t)) = dom (map t) ∪ list_to_set (pathsOf keys).
Proof.
  revert t. induction keys as [|key keys IH]; intros t; simpl.
  - rewrite union_empty_r_L. reflexivity.
  - unfold registerAll in *. simpl. rewrite IH. unfold register, pathsOf. simpl.
    destruct (FieldPath_of_string key); simpl.
    + rewrite DependencyFacts.dom_addDependency.
      rewrite (union_comm_L {[a]} (dom (map t))), union_assoc_L. reflexivity.
    + reflexivity.
Qed.

Lemma openSet_registerAll this keys t :
  openSet (registerAll this keys t) = openSet t.
Proof.
  revert t. induction keys as [|key keys IH]; intros t; [reflexivity|].
  unfold registerAll in *. simpl. rewrite IH. unfold register.
  destruct (FieldPath_of_string key); [|reflexivity].
  apply DependencyFacts.openSet_addDependency.
Qed.

(** A path of a registered key is tracked for the registering stage. *)
Lemma getDependency_registerAll this keys t path :
  path ∈ pathsOf keys -> getDependency path (registerAll this keys t) = Some this.
Proof.
  induction keys as [|key keys IH] using rev_ind; intros Hin.
  - inversion Hin.
  - unfold registerAll in *. rewrite foldl_app. simpl.
    unfold pathsOf in Hin. rewrite omap_app in Hin. fold (pathsOf keys) in Hin.
    apply elem_of_app in Hin. unfold register at 1.
    destruct (FieldPath_of_string key) as [p|e] eqn:Hp;
      simpl in Hin; rewrite Hp in Hin; simpl in Hin.
    + destruct (decide (p = path)) as [->|Hne].
      * apply DependencyFacts.getDependency_addDependency.
      * rewrite DependencyFacts.getDependency_addDependency_ne by exact Hne.
        destruct Hin as [Hin|Hin]; [auto|].
        apply list_elem_of_singleton in Hin. congruence.
    + destruct Hin as [Hin|Hin]; [auto|]. inversion Hin.
Qed.

(** The other paths keep what they were tracked for. *)
Lemma getDependency_registerAll_other this keys t path :
  path ∉ pathsOf keys -> getDependency path (registerAll this keys t) = getDependency path t.
Proof.
  induction keys as [|key keys IH] using rev_ind; intros Hnin; [reflexivity|].
  unfold registerAll in *. rewrite foldl_app. simpl.
  unfold pathsOf in Hnin. rewrite omap_app in Hnin. fold (pathsOf keys) in Hnin.
  rewrite elem_of_app in Hnin. unfold register at 1.
  destruct (FieldPath_of_string key) as [p|e] eqn:Hp;
    simpl in Hnin; rewrite Hp in Hnin; simpl in Hnin.
  - rewrite DependencyFacts.getDependency_addDependency_ne.
    + apply IH. tauto.
    + intros ->. apply Hnin. right. apply list_elem_of_singleton. reflexivity.
  - apply IH. tauto.
Qed.

(** C8: whatever the filter, the visitor calls its sink for field keys only,
    in their order, and [$or] and [$and] are not among them: the calls a
    sink notes are a prefix of the field keys, and all of them when the
    filter holds arrays of sub-filters under [$or] and [$and].  So for the
    tracker of the match stage: what it has registered when the visitor
    returns or throws is a prefix of the field keys; and on a filter with
    arrays of sub-filters under [$or] and [$and] and with field keys that
    are valid paths, the visitor returns, and the tracker then tracks,
    beside what it tracked, exactly the paths of the field keys, each for
    this stage. *)
Theorem visitDependencies_registers_field_keys
    (this : DocumentSourcePtr) (filter : BSONObj) (t : DependencyTracker)
    (r : result unit) (t' : DependencyTracker) :
  manageDependencies this filter t = (r, t') ->
  Forall (fun key => isLogical key = false) (fieldKeys filter) /\
  (forall calls : list string,
     (exists keys, keys `prefix_of` fieldKeys filter /\
                   (visitDependencies filter calls).2 = (calls ++ keys)%list) /\
     (wellFormed filter = true ->
      visitDependencies filter calls = (Ok tt, (calls ++ fieldKeys filter)%list))) /\
  (exists keys, keys `prefix_of` fieldKeys filter /\
                t' = registerAll this keys t /\
                (r = Ok tt -> keys = fieldKeys filter)) /\
  (wellFormed filter = true -> Forall validKey (fieldKeys filter) ->
   r = Ok tt /\
   t' = registerAll this (fieldKeys filter) t /\
   dom (map t') = dom (map t) ∪ list_to_set (pathsOf (fieldKeys filter)) /\
   (forall path, path ∈ pathsOf (fieldKeys filter) -> getDependency path t' = Some this) /\
   (forall path, path ∉ pathsOf (fieldKeys filter) ->
                 getDependency path t' = getDependency path t) /\
   openSet t' = openSet t).
Proof.
  unfold manageDependencies. intros Hrun.
  split; [apply fieldKeys_not_logical|]. split; [|split].
  - intros calls. split.
    + destruct (proj1 (visit_any_outcome noted Recorder_outcome filter) calls)
        as (keys & Hprefix & Hs & _).
      exists keys. split; [exact Hprefix|]. rewrite Hs. apply registered_noted.
    + intros Hwf.
      rewrite (proj1 (visit_wellFormed noted filter) Hwf), registered_noted;
        [reflexivity|].
      apply Forall_forall. intros key _ s. reflexivity.
  - destruct (proj1 (visit_any_outcome tracked Tracker_outcome filter)
                (mkMatchTracker t this))
      as (keys & Hprefix & Hs & Hok).
    destruct (visitDependencies filter (mkMatchTracker t this)) as [r0 s0].
    injection Hrun as <- <-. simpl in *.
    exists keys. split; [exact Hprefix|].
    split; [rewrite Hs, registered_tracked; reflexivity|exact Hok].
  - intros Hwf Hkeys.
    rewrite (proj1 (visit_wellFormed tracked filter) Hwf) in Hrun
      by (eapply Forall_impl; [exact Hkeys|apply Tracker_accepted]).
    rewrite registered_tracked in Hrun.
    injection Hrun as <- <-. simpl.
    split; [reflexivity|]. split; [reflexivity|].
    split; [apply dom_registerAll|].
    split; [intros path; apply getDependency_registerAll|].
    split; [intros path; apply getDependency_registerAll_other|].
    apply openSet_registerAll.
Qed.

(** The filter [{$or: [{a: 1}, {b: 2}]}]. *)
Definition or_a_b : BSONObj :=
  obj [("$or", Array (obj [("0", Object (obj [("a", NumberInt 1)]));
                           ("1", Object (obj [("b", NumberInt 2)]))]))].

Lemma visitDependencies_registers_field_keys_witness :
  fieldKeys or_a_b = ["a"; "b"] /\
  exists t', manageDependencies 0 or_a_b Dependencies.create = (Ok tt, t') /\
             dom (map t') = {[mkFieldPath ["a"]; mkFieldPath ["b"]]} /\
             getDependency (mkFieldPath ["a"]) t' = Some 0 /\
             getDependency (mkFieldPath ["$or"]) t' = None.
Proof.
  split; [reflexivity|].
  destruct (visitDependencies_registers_field_keys 0 or_a_b Dependencies.create
              (Ok tt) (manageDependencies 0 or_a_b Dependencies.create).2 eq_refl)
    as (_ & _ & _ & Hwf).
  destruct Hwf as (_ & _ & Hdom & Hthis & Hother & _).
  - reflexivity.
  - repeat constructor.
  - exists (manageDependencies 0 or_a_b Dependencies.create).2.
    split; [reflexivity|]. split; [|split].
    + rewrite Hdom. vm_compute. reflexivity.
    + apply Hthis. vm_compute. apply list_elem_of_here.
    + rewrite Hother; [reflexivity|]. vm_compute.
      intros Hin. repeat (apply elem_of_cons in Hin as [Hin|Hin]; [discriminate|]).
      apply elem_of_nil in Hin. exact Hin.
Defined.

End MatchFacts.

(** ** DocumentSourceCursor: iteration, yields and interruption *)

Module CursorFacts.
Import BSON CursorSource.
Local Open Scope cxx_scope.

(** The residual predicate on a position; no predicate accepts all. *)
Definition matches (m : option (DiskLoc * BSONObj -> bool))
    (position : DiskLoc * BSONObj) : bool :=
  match m with
  | None => true
  | Some pCIM => pCIM position
  end.

(** The records to surface, in the documentation's words: a position is
    skipped if it fails the residual predicate or if its record identifier
    was returned before; [returned] holds the identifiers returned so far. *)
Fixpoint qualifying (m : option (DiskLoc * BSONObj -> bool))
    (returned : gset DiskLoc) (scan : list (DiskLoc * BSONObj))
    : list (DiskLoc * BSONObj) :=
  match scan with
  | [] => []
  | position :: later =>
      if matches m position && negb (bool_decide (position.1 ∈ returned)) then
        position :: qualifying m ({[position.1]} ∪ returned) later
      else qualifying m returned later
  end.

(** The records a cursor has yet to surface. *)
Definition pending (this : DocumentSourceCursor) : list (DiskLoc * BSONObj) :=
  qualifying (matcher (pCursor this)) (dups (pCursor this))
    (positions (pCursor this)).

(** No coming yield fails. *)
Definition reacquires (this : DocumentSourceCursor) : Prop :=
  Forall (fun cursorOk => cursorOk = true) (reacquired (pCursor this)).

(** The iteration contract of a pipeline stage as its consumer drives it:
    [for (bool hasNext = !eof(); hasNext; hasNext = advance())
       out.push_back(getCurrent());]
    [consume] is the loop from its body on.  Every round but the last has
    the scan step on, so one round more than there are positions left is
    enough; [fuel] counts the rounds. *)
Fixpoint consume (fuel : nat) : M DocumentSourceCursor (list (option Document)) :=
  match fuel with
  | O => throw OutOfFuel
  | S fuel' =>
      let* current := getCurrent in
      let* hasNext := advance in
      if (hasNext : bool) then
        let* more := consume fuel' in ret (current :: more)
      else ret [current]
  end.

Definition iterate : M DocumentSourceCursor (list (option Document)) :=
  let* atEnd := eof in
  if (atEnd : bool) then ret []
  else fun this => consume (S (length (positions (pCursor this)))) this.

(** [n] calls of [findNext] in a row. *)
Fixpoint fetches (n : nat) : M DocumentSourceCursor unit :=
  match n with
  | O => ret tt
  | S n' => do findNext then fetches n'
  end.

(** *** The records to surface *)

Lemma qualifying_sublist m returned scan :
  qualifying m returned scan `sublist_of` scan.
Proof.
  revert returned. induction scan as [|position later IH]; intros returned; simpl.
  - constructor.
  - destruct (matches m position && _); [apply sublist_skip|apply sublist_cons]; apply IH.
Qed.

Lemma qualifying_fresh m returned scan position :
  position ∈ qualifying m returned scan ->
  matches m position = true /\ position.1 ∉ returned.
Proof.
  revert returned. induction scan as [|p later IH]; intros returned; simpl.
  - inversion 1.
  - destruct (matches m p) eqn:Hm; simpl.
    + destruct (bool_decide_reflect (p.1 ∈ returned)) as [Hin|Hnin]; simpl.
      * apply IH.
      * intros [->|Hlater]%elem_of_cons; [auto|].
        apply IH in Hlater as [? Hfresh]. split; [assumption|].
        intros Hin. apply Hfresh. apply elem_of_union_r. exact Hin.
    + apply IH.
Qed.

Lemma qualifying_NoDup m returned scan :
  NoDup (qualifying m returned scan).*1.
Proof.
  revert returned. induction scan as [|p later IH]; intros returned; simpl.
  - constructor.
  - destruct (matches m p && _); [|apply IH].
    simpl. constructor; [|apply IH].
    intros [q [Hq Hin]]%list_elem_of_fmap.
    apply qualifying_fresh in Hin as [_ Hfresh]. apply Hfresh.
    rewrite <- Hq. apply elem_of_union_l, elem_of_singleton. reflexivity.
Qed.

Lemma qualifying_complete m returned scan position :
  position ∈ scan -> matches m position = true -> position.1 ∉ returned ->
  position.1 ∈ (qualifying m returned scan).*1.
Proof.
  revert returned. induction scan as [|p later IH]; intros returned; simpl.
  - inversion 1.
  - intros Hin Hm Hfresh.
    destruct (decide (p.1 = position.1)) as [Heq|Hne].
    + destruct (matches m p) eqn:Hp; simpl.
      * rewrite bool_decide_eq_false_2 by (rewrite Heq; exact Hfresh).
        simpl. rewrite Heq. apply list_elem_of_here.
      * apply elem_of_cons in Hin as [->|Hin]; [congruence|].
        apply IH; assumption.
    + apply elem_of_cons in Hin as [->|Hin]; [congruence|].
      destruct (matches m p && _).
      * simpl. apply list_elem_of_further. apply IH; [assumption..|].
        rewrite elem_of_union, elem_of_singleton. intros [Heq|Hin']; auto.
      * apply IH; assumption.
Qed.

(** *** One fetch *)

Lemma dups_again (loc : DiskLoc) (returned : gset DiskLoc) :
  loc ∈ returned -> {[loc]} ∪ returned = returned.
Proof.
  intros Hin. apply subseteq_union_1_L, singleton_subseteq_l. exact Hin.
Qed.

(** The rounds allowed to the loop of [findNext] are enough, whatever the
    yields report. *)
Lemma findNext_loop_fuel fuel this :
  length (positions (pCursor this)) <= fuel ->
  (findNext_loop fuel this).1 <> Throw OutOfFuel.
Proof.
  revert this. induction fuel as [|fuel IH]; intros this Hlen; simpl.
  - destruct (positions (pCursor this)); [discriminate|simpl in Hlen; lia].
  - destruct (positions (pCursor this)) as [|p ps] eqn:Hps; [discriminate|].
    unfold bind at 1. unfold accepts, getsetdup.
    fold (matches (matcher (pCursor this)) p).
    assert (Hstep : forall s, positions (pCursor s) = p :: ps ->
              (bind advanceAndYield (fun _ => findNext_loop fuel) s).1 <> Throw OutOfFuel).
    { intros s Hs. unfold bind, advanceAndYield, yieldSometimes, Cursor_advance. simpl.
      destruct (reacquired (pCursor s)) as [|[] later]; simpl; try discriminate;
        apply IH; simpl; rewrite Hs; simpl in *; lia. }
    destruct (matches (matcher (pCursor this)) p).
    + destruct (bool_decide (p.1 ∈ dups (pCursor this))); cbn [negb]; cbv beta iota.
      * apply Hstep. simpl. exact Hps.
      * unfold bind, modify, advanceAndYield, yieldSometimes, Cursor_advance. simpl.
        destruct (reacquired (pCursor this)) as [|[] later]; simpl; discriminate.
    + apply Hstep. exact Hps.
Qed.

Lemma findNext_fuel this : (findNext this).1 <> Throw OutOfFuel.
Proof. apply findNext_loop_fuel. reflexivity. Qed.

(** A step of the scan whose yield succeeds. *)
Lemma advanceAndYield_reacquires this :
  reacquires this ->
  exists ys,
    Forall (fun cursorOk => cursorOk = true) ys /\
    advanceAndYield this
    = (Ok tt, set_pCursor {| positions := tail (positions (pCursor this));
                             matcher := matcher (pCursor this);
                             dups := dups (pCursor this);
                             reacquired := ys |} this).
Proof.
  unfold reacquires, advanceAndYield, yieldSometimes, Cursor_advance. simpl.
  intros Hys. destruct (reacquired (pCursor this)) as [|y ys] eqn:Hre.
  - exists []. split; [constructor|]. reflexivity.
  - apply Forall_cons in Hys as [-> Hys]. exists ys. split; [exact Hys|reflexivity].
Qed.

(** A fetch on a scan whose yields succeed returns with the first pending
    record as the current one, or with none when no record is pending, and
    leaves the others pending. *)
Lemma findNext_loop_pending fuel this :
  length (positions (pCursor this)) <= fuel -> reacquires this ->
  exists this',
    findNext_loop fuel this = (Ok tt, this') /\
    pCurrent this' = (fun position => createFromBsonObj position.2) <$> head (pending this) /\
    pending this' = tail (pending this) /\
    reacquires this' /\
    pExpCtx this' = pExpCtx this /\
    (pending this = [] -> positions (pCursor this') = []).
Proof.
  revert this. induction fuel as [|fuel IH]; intros this Hlen Hre.
  - destruct this as [ctx cur n q sel srt [ps m D ys] deps cc]; simpl in *.
    destruct ps; [|simpl in Hlen; lia]. eexists. split; [reflexivity|]. auto 7.
  - destruct (positions (pCursor this)) as [|p ps] eqn:Hps.
    + simpl. rewrite Hps. eexists. split; [reflexivity|].
      unfold pending. simpl. rewrite Hps.
      destruct this as [ctx cur n q sel srt [ps m D ys] deps cc]; simpl in *.
      subst ps. auto 7.
    + simpl. rewrite Hps. unfold bind at 1. unfold accepts.
      fold (matches (matcher (pCursor this)) p).
      assert (Hpending : pending this = qualifying (matcher (pCursor this)) (dups (pCursor this)) (p :: ps))
        by (unfold pending; rewrite Hps; reflexivity).
      simpl in Hpending.
      destruct (matches (matcher (pCursor this)) p) eqn:Hm; simpl in Hpending.
      * unfold getsetdup.
        destruct (bool_decide_reflect (p.1 ∈ dups (pCursor this))) as [Hdup|Hfresh];
          simpl in Hpending; simpl negb; cbv iota.
        -- (* a record returned before: step on *)
           unfold bind. cbn [negb]. cbv beta iota.
           match goal with |- context [advanceAndYield ?s] =>
             destruct (advanceAndYield_reacquires s) as (ys & Hys & ->);
               [exact Hre|]; set (this1 := set_pCursor _ s)
           end.
           destruct (IH this1) as (this' & Hrun & Hcur & Hpend & Hre' & Hctx & Hend).
           { subst this1. simpl. rewrite Hps. simpl in *. lia. }
           { exact Hys. }
           exists this'. split; [exact Hrun|].
           assert (Hp1 : pending this1 = pending this).
           { rewrite Hpending. subst this1. unfold pending. simpl.
             rewrite Hps. simpl. rewrite dups_again by exact Hdup. reflexivity. }
           rewrite Hp1 in *. auto 7.
        -- (* the next record to surface *)
           unfold bind, modify. cbn [negb]. cbv beta iota.
           match goal with |- context [advanceAndYield ?s] =>
             destruct (advanceAndYield_reacquires s) as (ys & Hys & ->);
               [exact Hre|]
           end.
           eexists. split; [reflexivity|].
           rewrite Hpending. unfold pending. simpl. rewrite Hps. simpl.
           split; [reflexivity|]. split; [reflexivity|]. split; [exact Hys|].
           split; [reflexivity|]. intros [=].
      * (* the residual predicate fails: step on *)
        unfold bind. cbv beta iota.
        match goal with |- context [advanceAndYield ?s] =>
          destruct (advanceAndYield_reacquires s) as (ys & Hys & ->);
            [exact Hre|]; set (this1 := set_pCursor _ s)
        end.
        destruct (IH this1) as (this' & Hrun & Hcur & Hpend & Hre' & Hctx & Hend).
        { subst this1. simpl. rewrite Hps. simpl in *. lia. }
        { exact Hys. }
        exists this'. split; [exact Hrun|].
        assert (Hp1 : pending this1 = pending this).
        { rewrite Hpending. subst this1. unfold pending. simpl.
          rewrite Hps. reflexivity. }
        rewrite Hp1 in *. auto 7.
Qed.

Lemma findNext_pending this :
  reacquires this ->
  exists this',
    findNext this = (Ok tt, this') /\
    pCurrent this' = (fun position => createFromBsonObj position.2) <$> head (pending this) /\
    pending this' = tail (pending this) /\
    reacquires this' /\
    pExpCtx this' = pExpCtx this /\
    (pending this = [] -> positions (pCursor this') = []).
Proof. intros Hre. apply findNext_loop_pending; [reflexivity|exact Hre]. Qed.

Lemma fetchFirst_current this d :
  pCurrent this = Some d -> fetchFirst this = (Ok tt, this).
Proof. unfold fetchFirst. intros ->. reflexivity. Qed.

(** [advance] from a current record, when nothing interrupts and no yield
    fails: the next pending record becomes the current one. *)
Lemma advance_pending this d :
  pCurrent this = Some d -> interrupted (pExpCtx this) = false -> reacquires this ->
  exists this',
    advance this = (Ok (bool_decide (pending this <> [])), this') /\
    pCurrent this' = (fun position => createFromBsonObj position.2) <$> head (pending this) /\
    pending this' = tail (pending this) /\
    reacquires this' /\
    pExpCtx this' = pExpCtx this /\
    (pending this = [] -> positions (pCursor this') = []).
Proof.
  intros Hcur Hint Hre.
  destruct (findNext_pending this Hre) as (this' & Hrun & Hcur' & Hrest).
  exists this'. split; [|auto].
  unfold advance, bind, DocumentSource_advance. rewrite Hint.
  rewrite (fetchFirst_current _ _ Hcur), Hrun. simpl. rewrite Hcur'.
  destruct (pending this); reflexivity.
Qed.

(** The loop of the consumer from a current record on surfaces this record
    and then the pending ones, and ends on an exhausted cursor. *)
Lemma consume_pending fuel this d :
  pCurrent this = Some d -> interrupted (pExpCtx this) = false -> reacquires this ->
  length (pending this) < fuel ->
  exists this',
    consume fuel this
    = (Ok (Some d :: ((fun position => Some (createFromBsonObj position.2)) <$> pending this)),
       this') /\
    pCurrent this' = None /\ positions (pCursor this') = [] /\
    pExpCtx this' = pExpCtx this.
Proof.
  revert this d. induction fuel as [|fuel IH]; intros this d Hcur Hint Hre Hfuel; [lia|].
  destruct (advance_pending this d Hcur Hint Hre)
    as (this1 & Hadv & Hcur1 & Hpend1 & Hre1 & Hctx1 & Hend1).
  simpl. unfold bind at 1. unfold getCurrent, bind at 1.
  rewrite (fetchFirst_current _ _ Hcur). simpl. rewrite Hcur.
  unfold bind at 1. rewrite Hadv.
  destruct (pending this) as [|p q] eqn:Hpend; simpl in *.
  - exists this1. auto.
  - destruct (IH this1 (createFromBsonObj p.2)) as (this' & Hrun & Hcur' & Hps' & Hctx');
      [assumption|congruence|assumption|rewrite Hpend1; lia|].
    unfold bind. rewrite Hrun. simpl. rewrite Hpend1.
    exists this'. split; [reflexivity|]. split; [assumption|].
    split; [assumption|congruence].
Qed.

Lemma eof_exhausted this :
  pCurrent this = None -> positions (pCursor this) = [] ->
  eof this = (Ok true, this).
Proof.
  intros Hcur Hps. unfold eof, bind, fetchFirst, findNext. rewrite Hcur, Hps. simpl.
  rewrite Hps. simpl.
  destruct this; simpl in *; subst; reflexivity.
Qed.

(** The fetch after [k] fetches makes the [k]-th pending record the current
    one; past the last pending record it leaves no current one. *)
Lemma fetches_pending k this :
  reacquires this ->
  exists this',
    fetches (S k) this = (Ok tt, this') /\
    pCurrent this' = (fun position => createFromBsonObj position.2) <$> pending this !! k.
Proof.
  revert this. induction k as [|k IH]; intros this Hre;
    destruct (findNext_pending this Hre)
      as (this1 & Hrun & Hcur1 & Hpend1 & Hre1 & Hctx1 & Hend1).
  - exists this1. simpl. unfold bind. rewrite Hrun. simpl.
    split; [reflexivity|]. rewrite Hcur1. destruct (pending this); reflexivity.
  - destruct (IH this1 Hre1) as (this' & Hrun' & Hcur').
    exists this'. change (fetches (S (S k))) with (do findNext then fetches (S k))%cxx.
    unfold bind at 1. rewrite Hrun, Hrun'. split; [reflexivity|].
    rewrite Hcur', Hpend1. destruct (pending this); reflexivity.
Qed.

(** C1: a cursor that has not fetched yet, driven through [eof],
    [getCurrent] and [advance] while nothing interrupts and no yield fails,
    surfaces the snapshots of the qualifying records, and then is at its end:
    no current snapshot, [eof()] true.  Fetch by fetch, the [k]-th fetch
    makes the [k]-th qualifying record the current one, and the fetch after
    the last one clears it.  The qualifying records are positions
    of the scan in the scan's order; no record identifier comes twice; each
    satisfies the residual predicate and was not returned before; and every
    position that satisfies the predicate has its record surfaced, unless
    the record was returned before. *)
Theorem iterate_surfaces_qualifying (this : DocumentSourceCursor) :
  pCurrent this = None ->
  interrupted (pExpCtx this) = false ->
  reacquires this ->
  let m := matcher (pCursor this) in
  let returned := dups (pCursor this) in
  let scan := positions (pCursor this) in
  let surfaced := qualifying m returned scan in
  (exists this',
     iterate this
     = (Ok ((fun position => Some (createFromBsonObj position.2)) <$> surfaced), this') /\
     pCurrent this' = None /\
     eof this' = (Ok true, this')) /\
  (forall k, exists this',
     fetches (S k) this = (Ok tt, this') /\
     pCurrent this' = (fun position => createFromBsonObj position.2) <$> surfaced !! k) /\
  surfaced `sublist_of` scan /\
  NoDup surfaced.*1 /\
  (forall position, position ∈ surfaced ->
     matches m position = true /\ position.1 ∉ returned) /\
  (forall position, position ∈ scan -> matches m position = true ->
     position.1 ∉ returned -> position.1 ∈ surfaced.*1).
Proof.
  intros Hcur Hint Hre m returned scan surfaced.
  split; [|split; [intros k; apply fetches_pending, Hre|
                   split; [apply qualifying_sublist|split; [apply qualifying_NoDup|split]]]].
  - destruct (findNext_pending this Hre)
      as (this1 & Hrun & Hcur1 & Hpend1 & Hre1 & Hctx1 & Hend1).
    subst m returned scan surfaced. fold (pending this).
    unfold iterate, bind at 1. unfold eof, bind, fetchFirst, get, ret.
    rewrite Hcur, Hrun. cbv beta iota.
    destruct (pending this) as [|p q] eqn:Hs; simpl in Hcur1; rewrite Hcur1;
      cbv beta iota.
    + simpl. exists this1. split; [reflexivity|]. split; [assumption|].
      apply eof_exhausted; auto.
    + destruct (consume_pending (S (length (positions (pCursor this1)))) this1
                  (createFromBsonObj p.2))
        as (this' & Hrun' & Hcur' & Hps' & Hctx'); [assumption|congruence|assumption| |].
      { pose proof (sublist_length _ _
          (qualifying_sublist (matcher (pCursor this1)) (dups (pCursor this1))
             (positions (pCursor this1)))) as Hle.
        fold (pending this1) in Hle. lia. }
      rewrite Hrun', Hpend1. simpl.
      exists this'. split; [reflexivity|]. split; [assumption|].
      apply eof_exhausted; assumption.
  - intros position. apply qualifying_fresh.
  - intros position. apply qualifying_complete.
Qed.

(** The scan of the documentation's example: records 1 to 6, record 2
    visited twice, and a residual predicate that holds of the records with
    an even identifier. *)
Definition record (loc : DiskLoc) : DiskLoc * BSONObj :=
  (loc, obj [("_id", NumberInt (Z.of_nat loc))]).

Definition example_scan (yields : list bool) : Cursor :=
  {| positions := [record 1; record 2; record 2; record 3; record 4; record 5; record 6];
     matcher := Some (fun position => Nat.even position.1);
     dups := ∅;
     reacquired := yields |}.

Definition example_cursor (yields : list bool) (interrupt : bool)
    : DocumentSourceCursor :=
  {| pExpCtx := mkExpressionContext interrupt; pCurrent := None; ns := "db.c";
     pQuery := None; pSelect := None; pSort := None;
     pCursor := example_scan yields; pDependencies := [];
     pClientCursor := mkClientCursor QueryOption_NoCursorTimeout "db" |}.

Lemma iterate_surfaces_qualifying_witness :
  exists this',
    iterate (example_cursor [] false)
    = (Ok [Some (createFromBsonObj (record 2).2);
           Some (createFromBsonObj (record 4).2);
           Some (createFromBsonObj (record 6).2)], this') /\
    pCurrent this' = None /\
    eof this' = (Ok true, this').
Proof.
  destruct (iterate_surfaces_qualifying (example_cursor [] false)) as [Hrun _].
  - reflexivity.
  - reflexivity.
  - constructor.
  - exact Hrun.
Defined.

(** Started with [advance], the same cursor has fetched and dropped record
    2 by the time the call returns: record 4 is the current one. *)
Example advance_first_discards :
  (advance (example_cursor [] false)).1 = Ok true /\
  pCurrent (advance (example_cursor [] false)).2
  = Some (createFromBsonObj (record 4).2).
Proof. split; reflexivity. Qed.

(** *** Yields that fail *)

(** A fetch that returns has seen every yield it made succeed: what it used
    of the coming outcomes is all successes. *)
Lemma findNext_loop_returns fuel this this' :
  findNext_loop fuel this = (Ok tt, this') ->
  exists ys, Forall (fun cursorOk => cursorOk = true) ys /\
             reacquired (pCursor this) = (ys ++ reacquired (pCursor this'))%list.
Proof.
  revert this. induction fuel as [|fuel IH]; intros this; simpl.
  - destruct (positions (pCursor this)); [|discriminate].
    intros [= <-]. exists []. split; [constructor|reflexivity].
  - destruct (positions (pCursor this)) as [|p ps] eqn:Hps.
    + intros [= <-]. exists []. split; [constructor|reflexivity].
    + unfold bind at 1.
      destruct (accepts p this) as [[accepted|e] this0] eqn:Hacc.
      2:{ unfold accepts, getsetdup in Hacc.
          fold (matches (matcher (pCursor this)) p) in Hacc.
          destruct (matches (matcher (pCursor this)) p); discriminate. }
      assert (Hre0 : reacquired (pCursor this0) = reacquired (pCursor this)).
      { unfold accepts, getsetdup in Hacc.
        fold (matches (matcher (pCursor this)) p) in Hacc.
        destruct (matches (matcher (pCursor this)) p);
          injection Hacc as _ <-; reflexivity. }
      assert (Hyield : forall s s', advanceAndYield s = (Ok tt, s') ->
                exists ys, Forall (fun cursorOk => cursorOk = true) ys /\
                           reacquired (pCursor s) = (ys ++ reacquired (pCursor s'))%list).
      { intros s s'. unfold advanceAndYield, yieldSometimes, Cursor_advance. simpl.
        destruct (reacquired (pCursor s)) as [|[] later] eqn:Hre; simpl.
        - intros [= <-]. simpl. exists []. split; [constructor|]. simpl. congruence.
        - intros [= <-]. simpl. exists [true]. split; [repeat constructor|reflexivity].
        - discriminate. }
      rewrite <- Hre0. destruct accepted.
      * unfold bind, modify. intros Hrun. apply Hyield in Hrun. exact Hrun.
      * unfold bind. destruct (advanceAndYield this0) as [[[]|e] this1] eqn:Hadv;
          [|discriminate].
        intros Hrun. apply Hyield in Hadv as (ys & Hys & ->).
        apply IH in Hrun as (ys' & Hys' & ->).
        exists (ys ++ ys')%list. split; [apply Forall_app; auto|].
        rewrite app_assoc. reflexivity.
Qed.

(** C4: when the scan has a position left and the yield of the coming step
    reports that the scan could not be reacquired, the step throws error
    16028, and so does every call that fetches: [findNext], [advance], and
    [eof] and [getCurrent] on a cursor without a current document.  No such
    call returns, and none clears the current document.  More generally a
    fetch returns only after yields that all succeeded. *)
Theorem failed_reacquisition_is_raised :
  (forall this later,
     ok (pCursor this) = true ->
     reacquired (pCursor this) = false :: later ->
     (advanceAndYield this).1 = Throw CursorInvalidated /\
     (findNext this).1 = Throw CursorInvalidated /\
     (pCurrent (findNext this).2 = None -> pCurrent this = None) /\
     (interrupted (pExpCtx this) = false -> (advance this).1 = Throw CursorInvalidated) /\
     (pCurrent this = None ->
        (eof this).1 = Throw CursorInvalidated /\
        (getCurrent this).1 = Throw CursorInvalidated)) /\
  (forall this this',
     findNext this = (Ok tt, this') ->
     exists ys, Forall (fun cursorOk => cursorOk = true) ys /\
                reacquired (pCursor this) = (ys ++ reacquired (pCursor this'))%list).
Proof.
  split; [|intros this this'; apply findNext_loop_returns].
  intros this later Hok Hre.
  assert (Hyield : (advanceAndYield this).1 = Throw CursorInvalidated).
  { unfold advanceAndYield, yieldSometimes, Cursor_advance. simpl. rewrite Hre. reflexivity. }
  assert (Hfind : exists s, findNext this = (Throw CursorInvalidated, s) /\
                            (pCurrent s = None -> pCurrent this = None)).
  { unfold findNext, ok in *.
    destruct (positions (pCursor this)) as [|p ps] eqn:Hps; [discriminate|].
    simpl. rewrite Hps. unfold bind at 1. unfold accepts, getsetdup.
    fold (matches (matcher (pCursor this)) p).
    destruct (matches (matcher (pCursor this)) p).
    - destruct (bool_decide (p.1 ∈ dups (pCursor this))); cbn [negb]; cbv beta iota;
        unfold bind, modify, advanceAndYield, yieldSometimes, Cursor_advance; simpl;
        rewrite Hre; eexists; (split; [reflexivity|]); simpl; auto; discriminate.
    - unfold bind, advanceAndYield, yieldSometimes, Cursor_advance; simpl.
      rewrite Hre. eexists. split; [reflexivity|]. auto. }
  destruct Hfind as (s & Hfind & Hkeeps).
  split; [exact Hyield|]. rewrite Hfind. simpl.
  split; [reflexivity|]. split; [exact Hkeeps|]. split.
  - intros Hint. unfold advance, bind, DocumentSource_advance, fetchFirst.
    rewrite Hint. destruct (pCurrent this); rewrite Hfind; reflexivity.
  - intros Hcur. unfold eof, getCurrent, bind, fetchFirst. rewrite Hcur, Hfind.
    split; reflexivity.
Qed.

Lemma failed_reacquisition_is_raised_witness :
  (advance (example_cursor [false] false)).1 = Throw CursorInvalidated /\
  (eof (example_cursor [false] false)).1 = Throw CursorInvalidated /\
  (advance (example_cursor [true; false] false)).1 = Throw CursorInvalidated.
Proof.
  destruct failed_reacquisition_is_raised as [Hfirst _].
  destruct (Hfirst (example_cursor [false] false) [] eq_refl eq_refl)
    as (_ & _ & _ & Hadv & Heof).
  split; [exact (Hadv eq_refl)|]. split; [exact (proj1 (Heof eq_refl))|].
  reflexivity.
Defined.

(** *** Interruption *)

(** C6: when the interruption flag is set, [advance] throws [Interrupted]
    and leaves the cursor as it was: no fetch was made, the scan is where it
    was, and the current document is the same. *)
Theorem advance_interrupted (this : DocumentSourceCursor) :
  interrupted (pExpCtx this) = true ->
  advance this = (Throw Interrupted, this).
Proof.
  intros Hint. unfold advance, bind, DocumentSource_advance. rewrite Hint. reflexivity.
Qed.

Lemma advance_interrupted_witness :
  advance (example_cursor [] true) = (Throw Interrupted, example_cursor [] true).
Proof. apply advance_interrupted. reflexivity. Defined.

End CursorFacts.

(** ** The planner: what is fused and what is left *)

Module PlannerFacts.
Import FieldPaths BSON Dependencies CursorSource PipelineD.

(** The filter the scan is asked for: the one of a leading filter stage,
    and the unconstrained filter [{}] without one. *)
Definition filterOf (stages : list DocumentSource) : BSONObj :=
  match stages with
  | DocumentSourceMatch query :: _ => query
  | _ => BSONObj_end
  end.

(** The stage list once a leading filter stage is taken off. *)
Definition afterMatch (stages : list DocumentSource) : list DocumentSource :=
  match stages with
  | DocumentSourceMatch _ :: rest => rest
  | _ => stages
  end.

(** The calls of [getCursor] a planning has added. *)
Definition attempts (before after : Planning) : list Acquisition :=
  drop (length (acquisitions before)) (acquisitions after).

Section Planner.
Variable getCursor : string -> BSONObj -> option BSONObj -> option Cursor.
Variable manageOther :
  DocumentSource -> DocumentSourcePtr -> M DependencyTracker unit.

Abbreviation prepare := (prepareCursorSource getCursor manageOther).

Lemma drop_length_app {A} (l k : list A) : drop (length l) (l ++ k) = k.
Proof. rewrite drop_app_length. reflexivity. Qed.

Ltac planner_step :=
  match goal with
  | |- context [analyze ?f ?l] => destruct (analyze f l) as [[[]|?] ?] eqn:?
  | |- context [isClosedSet ?t] => destruct (isClosedSet t) eqn:?
  | |- context [buildSelectList ?b ?t] => destruct (buildSelectList b t) eqn:?
  | |- context [getCursor ?n ?q ?o] => destruct (getCursor n q o) eqn:?
  end.

Ltac planner_run :=
  unfold prepareCursorSource, bind, get, lift, erase_begin, modify, acquire, ret,
    getInitialQuery, create; simpl;
  repeat (planner_step; simpl).

(** C5: whatever the outcome, planning leaves a suffix of the stage list it
    was given, at most two stages shorter: stages go from the front only, and
    the stages that stay keep their order.  When the scan for the filter and
    the sort key was asked for and refused, the list is the one left by the
    extraction of the filter, the sort stage still at its front. *)
Theorem prepareCursorSource_removes_front
    (dbName : string) (pExpCtx : ExpressionContext) (p : Planning) :
  let p' := (prepare dbName pExpCtx p).2 in
  collectionName p' = collectionName p /\
  (exists n, n <= 2 /\ sourceVector p' = drop n (sourceVector p)) /\
  (forall a, a ∈ attempts p p' -> acq_order a <> None ->
             getCursor (acq_ns a) (acq_query a) (acq_order a) = None ->
             sourceVector p' = afterMatch (sourceVector p) /\
             exists sortKey rest,
               sourceVector p' = DocumentSourceSort sortKey :: rest /\
               acq_order a = Some sortKey).
Proof.
  destruct p as [coll stages acqs]. unfold attempts. simpl.
  destruct stages as [|[query|sortKey|name] [|[query'|sortKey'|name'] rest]];
    planner_run;
    (split; [reflexivity|]);
    (split; [first [exists 0; split; [lia|reflexivity]
                   |exists 1; split; [lia|reflexivity]
                   |exists 2; split; [lia|reflexivity]]|]);
    rewrite <- ?app_assoc, ?drop_length_app, ?drop_all;
    intros attempt Hattempt Hsorted Hrefused;
    repeat (apply elem_of_cons in Hattempt as [->|Hattempt]);
    try (apply elem_of_nil in Hattempt; destruct Hattempt);
    simpl in *; try congruence; eauto 6.
Qed.

(** C2: when the dependency analysis and the select-list go through and
    the storage layer has a scan for the filter alone, planning returns the
    cursor source.  It has taken a leading filter stage off the list and
    asks for that filter, or for [{}] without one.  When the next stage is a
    sort stage, it has asked for a scan for the filter and the sort key
    first, and has taken the sort stage off exactly when it got one; in every
    other case it has asked for a scan for the filter alone, and the list is
    the one the extraction of the filter left. *)
Theorem prepareCursorSource_fuses_front
    (dbName : string) (pExpCtx : ExpressionContext) (p : Planning)
    (tracker : DependencyTracker) (selectList : list (string * BSONValue)) :
  let fullName := (dbName ++ "." ++ collectionName p)%string in
  let filter := filterOf (sourceVector p) in
  let stages := afterMatch (sourceVector p) in
  analyze manageOther (sourceVector p) = (Ok tt, tracker) ->
  (if isClosedSet tracker then buildSelectList [] tracker else Ok []) = Ok selectList ->
  is_Some (getCursor fullName filter None) ->
  exists pSource p',
    prepare dbName pExpCtx p = (Ok pSource, p') /\
    ns pSource = fullName /\
    pQuery pSource = Some filter /\
    pSelect pSource = Some (obj selectList) /\
    pCurrent pSource = None /\
    match stages with
    | DocumentSourceSort sortKey :: rest =>
        match getCursor fullName filter (Some sortKey) with
        | Some sorted =>
            sourceVector p' = rest /\
            attempts p p' = [mkAcquisition fullName filter (Some sortKey)] /\
            pCursor pSource = sorted /\
            pSort pSource = Some sortKey
        | None =>
            sourceVector p' = stages /\
            attempts p p' = [mkAcquisition fullName filter (Some sortKey);
                             mkAcquisition fullName filter None] /\
            getCursor fullName filter None = Some (pCursor pSource) /\
            pSort pSource = None
        end
    | _ =>
        sourceVector p' = stages /\
        attempts p p' = [mkAcquisition fullName filter None] /\
        getCursor fullName filter None = Some (pCursor pSource) /\
        pSort pSource = None
    end.
Proof.
  destruct p as [coll stages0 acqs]. unfold attempts. simpl.
  intros Hdeps Hsel [scan Hscan].
  unfold prepareCursorSource, bind, get, lift. cbn [sourceVector collectionName].
  rewrite Hdeps. cbv beta iota. rewrite Hsel. cbv beta iota.
  destruct stages0 as [|[query|sortKey|name] [|[query'|sortKey'|name'] rest]];
    unfold erase_begin, modify, acquire, ret, getInitialQuery, create; simpl in *;
    try (destruct (getCursor _ _ (Some _)) eqn:Hsorted; simpl);
    rewrite ?Hscan; simpl;
    eexists _, _; (split; [reflexivity|]); simpl;
    rewrite <- ?app_assoc, ?drop_length_app; auto 10.
Qed.

End Planner.

(** The pipeline [[filter{a=1}, sort{b=1}, group]] of the documentation. *)
Definition example_stages : list DocumentSource :=
  [DocumentSourceMatch (obj [("a", NumberInt 1)]);
   DocumentSourceSort (obj [("b", NumberInt 1)]);
   DocumentSourceOther "$group"].

Definition example_planning : Planning :=
  {| collectionName := "c"; sourceVector := example_stages; acquisitions := [] |}.

(** A grouping stage closes the set; here it needs no field. *)
Definition example_manageOther (stage : DocumentSource) (step : DocumentSourcePtr)
    : M DependencyTracker unit :=
  match stage with
  | DocumentSourceOther _ => modify setClosedSet
  | _ => ret tt
  end.

Definition empty_scan : Cursor :=
  {| positions := []; matcher := None; dups := ∅; reacquired := [] |}.

(** A collection with an index that serves every sort, and one with none. *)
Definition indexed_getCursor (ns : string) (query : BSONObj) (order : option BSONObj)
    : option Cursor := Some empty_scan.
Definition unindexed_getCursor (ns : string) (query : BSONObj) (order : option BSONObj)
    : option Cursor :=
  match order with
  | Some _ => None
  | None => Some empty_scan
  end.

Lemma prepareCursorSource_fuses_front_witness :
  exists pSource p',
    prepareCursorSource indexed_getCursor example_manageOther "db"
      (mkExpressionContext false) example_planning = (Ok pSource, p') /\
    sourceVector p' = [DocumentSourceOther "$group"] /\
    pQuery pSource = Some (obj [("a", NumberInt 1)]) /\
    pSort pSource = Some (obj [("b", NumberInt 1)]) /\
    pSelect pSource = Some (obj [("a", Bool true)]) /\
    acquisitions p' = [mkAcquisition "db.c" (obj [("a", NumberInt 1)])
                         (Some (obj [("b", NumberInt 1)]))].
Proof.
  destruct (prepareCursorSource_fuses_front indexed_getCursor example_manageOther
              "db" (mkExpressionContext false) example_planning
              (analyze example_manageOther example_stages).2
              [("a", Bool true)])
    as (pSource & p' & Hrun & Hns & Hquery & Hselect & Hcur & Hrest & Hattempts & Hscan & Hsort).
  - reflexivity.
  - vm_compute. reflexivity.
  - eexists. reflexivity.
  - exists pSource, p'. simpl in *. unfold attempts in Hattempts. simpl in Hattempts.
    rewrite drop_0 in Hattempts. auto 10.
Defined.

(** Without a usable index only the filter is fused, and the sort stays. *)
Example prepareCursorSource_unindexed :
  let '(r, p') := prepareCursorSource unindexed_getCursor example_manageOther "db"
                    (mkExpressionContext false) example_planning in
  is_ok r = true /\
  sourceVector p' = [DocumentSourceSort (obj [("b", NumberInt 1)]);
                     DocumentSourceOther "$group"] /\
  acquisitions p' = [mkAcquisition "db.c" (obj [("a", NumberInt 1)])
                       (Some (obj [("b", NumberInt 1)]));
                     mkAcquisition "db.c" (obj [("a", NumberInt 1)]) None].
Proof. vm_compute. auto. Qed.

End PlannerFacts.

(** * Further properties of the code *)

(** ** FieldPath: comparison, prefixes, parsing and rendering *)

Module FieldPathMore.
Import FieldPaths FieldPathFacts.
#[local] Arguments String.append !s1 s2 : simpl nomatch.

(** The string begins with a dot. *)
Definition starts_with_dot (s : string) : bool :=
  match s with
  | String c _ => Ascii.eqb c "."
  | EmptyString => false
  end.

(** The string has two dots in a row. *)
Fixpoint has_double_dot (s : string) : bool :=
  match s with
  | EmptyString => false
  | String c s' => (Ascii.eqb c "." && starts_with_dot s') || has_double_dot s'
  end.

(** The number of dots of the string. *)
Fixpoint count_dots (s : string) : nat :=
  match s with
  | EmptyString => 0
  | String c s' => (if Ascii.eqb c "." then 1 else 0) + count_dots s'
  end.

(** The segment has no dot. *)
Definition dotless (seg : string) : Prop := find seg "." 0 = None.

Lemma common_equal_prefix l r :
  length r <= length l -> (common_equal l r = true <-> r `prefix_of` l).
Proof.
  revert r. induction l as [|a l IH]; intros [|b r] Hlen; simpl in *; try lia.
  - split; [intros _; reflexivity|reflexivity].
  - split; [intros _; apply prefix_nil|reflexivity].
  - destruct (String.eqb_spec a b) as [->|Hne].
    + rewrite IH by lia. split; [apply prefix_cons|apply prefix_cons_inv_2].
    + split; [discriminate|]. intros Hp. apply prefix_cons_inv_1 in Hp. congruence.
Qed.

Lemma common_equal_sym l r : common_equal l r = common_equal r l.
Proof.
  revert r. induction l as [|a l IH]; intros [|b r]; simpl; try reflexivity.
  rewrite (String.eqb_sym a b). destruct (String.eqb b a); [apply IH|reflexivity].
Qed.

(** X1: [operator==] holds exactly of paths with the same segments in the
    same order: a common beginning is not enough when the lengths differ.
    It is symmetric, and every path equals itself. *)
Theorem operator_eq_is_equality (l r : FieldPath) :
  (FieldPath_eqb l r = true <-> vFieldName l = vFieldName r) /\
  FieldPath_eqb l r = FieldPath_eqb r l /\
  FieldPath_eqb l l = true /\
  (length (vFieldName l) <> length (vFieldName r) -> FieldPath_eqb l r = false).
Proof.
  split; [|split; [|split]].
  - rewrite FieldPath_eqb_eq. destruct l, r; simpl. split; congruence.
  - unfold FieldPath_eqb. rewrite common_equal_sym.
    rewrite (Nat.eqb_sym (length (vFieldName l))). reflexivity.
  - apply FieldPath_eqb_eq. reflexivity.
  - intros Hlen. unfold FieldPath_eqb.
    apply Nat.eqb_neq in Hlen. rewrite Hlen.
    destruct (common_equal _ _); reflexivity.
Qed.

Lemma isPrefixOf_iff a b :
  isPrefixOf a b = true <-> vFieldName b `prefix_of` vFieldName a.
Proof.
  unfold isPrefixOf.
  destruct (Nat.ltb_spec (length (vFieldName a)) (length (vFieldName b))) as [Hlt|Hle].
  - split; [discriminate|]. intros Hp. apply prefix_length in Hp. lia.
  - apply common_equal_prefix. exact Hle.
Qed.

(** X2: [isPrefixOf] holds exactly when the segments of the argument are the
    first segments of this path; so it fails on a longer argument, holds of
    the path itself, and two paths that are prefixes of each other are the
    same. *)
Theorem isPrefixOf_is_prefix (this rOther : FieldPath) :
  (isPrefixOf this rOther = true <-> vFieldName rOther `prefix_of` vFieldName this) /\
  (length (vFieldName this) < length (vFieldName rOther) -> isPrefixOf this rOther = false) /\
  isPrefixOf this this = true /\
  (isPrefixOf this rOther = true -> isPrefixOf rOther this = true -> this = rOther).
Proof.
  split; [apply isPrefixOf_iff|]. split; [|split].
  - intros Hlt. unfold isPrefixOf. apply Nat.ltb_lt in Hlt. rewrite Hlt. reflexivity.
  - apply isPrefixOf_iff. reflexivity.
  - rewrite !isPrefixOf_iff. intros H1 H2.
    destruct this as [l], rOther as [r]; simpl in *. f_equal.
    symmetry. apply prefix_length_eq; [exact H1|].
    apply prefix_length. exact H2.
Qed.


(** X4: whenever the constructor accepts a string, [getPath(false)] of the
    path is that string, also when the last segment is empty; so the path has
    a segment, and no other string gives the same path. *)
Theorem getPath_inverts_FieldPath_of_string (s : string) (p : FieldPath) :
  FieldPath_of_string s = Ok p ->
  getPath p false = Ok s /\
  1 <= getPathLength p /\
  (forall s', FieldPath_of_string s' = Ok p -> s' = s).
Proof.
  rewrite FieldPath_of_string_segments.
  destruct (has_empty (removelast (segments s))); [discriminate|].
  intros [= <-].
  pose proof (segments_nonempty s) as Hne.
  pose proof (dotted_segments s) as Hd.
  split; [|split].
  - destruct (segments s) as [|f0 rest]; [congruence|].
    rewrite getPath_dotted, Hd. reflexivity.
  - unfold getPathLength. simpl. destruct (segments s); [congruence|simpl; lia].
  - intros s'. rewrite FieldPath_of_string_segments.
    destruct (has_empty (removelast (segments s'))); [discriminate|].
    intros [= Heq]. rewrite <- (dotted_segments s'), Heq. exact Hd.
Qed.

Lemma getPath_inverts_FieldPath_of_string_witness :
  getPath (mkFieldPath ["a"; EmptyString]) false = Ok "a." /\
  1 <= getPathLength (mkFieldPath ["a"; EmptyString]) /\
  (forall s', FieldPath_of_string s' = Ok (mkFieldPath ["a"; EmptyString]) -> s' = "a.").
Proof.
  apply (getPath_inverts_FieldPath_of_string "a." (mkFieldPath ["a"; EmptyString])).
  reflexivity.
Defined.

Lemma dotless_cons c seg :
  dotless (String c seg) -> Ascii.eqb c "." = false /\ dotless seg.
Proof.
  unfold dotless. simpl. destruct (Ascii.eqb c "."); [discriminate|].
  destruct (find seg "." 0); [discriminate|]. auto.
Qed.

Lemma segments_append_dot seg s' :
  dotless seg -> segments (seg ++ String "." s') = seg :: segments s'.
Proof.
  induction seg as [|c seg IH]; intros Hseg; simpl.
  - reflexivity.
  - apply dotless_cons in Hseg as [-> Hseg]. rewrite IH by exact Hseg. reflexivity.
Qed.

Lemma segments_dotted segs :
  segs <> [] -> Forall dotless segs -> segments (dotted segs) = segs.
Proof.
  induction segs as [|seg segs IH]; intros Hne Hsegs; [congruence|].
  apply Forall_cons in Hsegs as [Hseg Hsegs].
  destruct segs as [|seg' segs].
  - simpl. apply find_None_segments. exact Hseg.
  - change (dotted (seg :: seg' :: segs))
      with (seg ++ String "." (dotted (seg' :: segs)))%string.
    rewrite segments_append_dot by exact Hseg.
    rewrite IH; [reflexivity|discriminate|exact Hsegs].
Qed.

(** X5: a path with at least one segment, whose segments have no dot and
    are non-empty but possibly the last, is what the constructor makes of
    its own rendering. *)
Theorem FieldPath_of_string_inverts_getPath (p : FieldPath) :
  1 <= getPathLength p ->
  Forall dotless (vFieldName p) ->
  Forall (fun seg => seg <> EmptyString) (removelast (vFieldName p)) ->
  exists s, getPath p false = Ok s /\ FieldPath_of_string s = Ok p.
Proof.
  destruct p as [[|f0 rest]]; unfold getPathLength; simpl vFieldName;
    intros Hlen Hdotless Hnonempty; [simpl in Hlen; lia|].
  exists (dotted (f0 :: rest)). split; [apply getPath_dotted|].
  rewrite FieldPath_of_string_segments.
  rewrite segments_dotted by (discriminate || exact Hdotless).
  rewrite (has_empty_false _ Hnonempty). reflexivity.
Qed.

Lemma FieldPath_of_string_inverts_getPath_witness :
  exists s, getPath (mkFieldPath ["a"; "b"]) false = Ok s /\
            FieldPath_of_string s = Ok (mkFieldPath ["a"; "b"]).
Proof.
  apply (FieldPath_of_string_inverts_getPath (mkFieldPath ["a"; "b"])).
  - unfold getPathLength. simpl. lia.
  - simpl. repeat constructor.
  - simpl. repeat constructor. discriminate.
Defined.

(** Empty segments before the last one, at the front and further on. *)
Lemma has_empty_segments s :
  has_empty (removelast (segments s)) = starts_with_dot s || has_double_dot s /\
  has_empty (removelast (tail (segments s))) = has_double_dot s.
Proof.
  induction s as [|c s [IHa IHb]]; [split; reflexivity|].
  pose proof (segments_nonempty s) as Hne.
  simpl. destruct (Ascii.eqb c ".") eqn:Hc; simpl.
  - rewrite IHa. split; [|reflexivity].
    destruct (segments s); [congruence|reflexivity].
  - destruct (segments s) as [|seg rest]; [congruence|].
    simpl in IHb. simpl tail. rewrite <- IHb. split; [|reflexivity].
    destruct rest; reflexivity.
Qed.

(** X6: the constructor throws error 15998 exactly on the strings that begin
    with a dot or have two dots in a row; every other string, the empty one
    and those that end in a dot among them, gives a path. *)
Theorem FieldPath_of_string_fails_iff (s : string) :
  FieldPath_of_string s
  = if starts_with_dot s || has_double_dot s then Throw (UserException 15998)
    else Ok (mkFieldPath (segments s)).
Proof.
  rewrite FieldPath_of_string_segments, (proj1 (has_empty_segments s)). reflexivity.
Qed.

Lemma length_segments s : length (segments s) = S (count_dots s).
Proof.
  induction s as [|c s IH]; [reflexivity|].
  pose proof (segments_nonempty s) as Hne.
  simpl. destruct (Ascii.eqb c "."); simpl; [rewrite IH; reflexivity|].
  destruct (segments s); [congruence|]. simpl in *. lia.
Qed.

(** X7: a path made from a string has one segment more than the string has
    dots. *)
Theorem getPathLength_FieldPath_of_string (s : string) (p : FieldPath) :
  FieldPath_of_string s = Ok p -> getPathLength p = S (count_dots s).
Proof.
  rewrite FieldPath_of_string_segments.
  destruct (has_empty (removelast (segments s))); [discriminate|].
  intros [= <-]. apply length_segments.
Qed.

Lemma getPathLength_FieldPath_of_string_witness :
  getPathLength (mkFieldPath ["a"; "b"; "c"]) = S (count_dots "a.b.c").
Proof.
  apply (getPathLength_FieldPath_of_string "a.b.c" (mkFieldPath ["a"; "b"; "c"])).
  reflexivity.
Defined.

(** X8: [writePath] adds to what the stream holds, and changes none of it:
    the prefix [$] when it is asked for, then what [getPath(false)] gives. *)
Theorem writePath_appends (p : FieldPath) (outStream : string) (fieldPrefix : bool)
    (path : string) :
  getPath p false = Ok path ->
  writePath p outStream fieldPrefix
  = Ok (outStream ++ (if fieldPrefix then "$" else EmptyString) ++ path)%string /\
  getPath p true = Ok ("$" ++ path)%string.
Proof.
  destruct p as [[|f0 rest]]; unfold getPath, writePath; simpl vFieldName;
    [discriminate|].
  cbv iota beta. rewrite !writeRest_dotted. intros [= <-].
  split.
  - destruct fieldPrefix; unfold prefix; rewrite ?append_assoc; reflexivity.
  - unfold prefix. rewrite ?append_assoc. reflexivity.
Qed.

Lemma writePath_appends_witness :
  writePath (mkFieldPath ["a"; "b"]) "x = " true = Ok "x = $a.b" /\
  getPath (mkFieldPath ["a"; "b"]) true = Ok "$a.b".
Proof.
  apply (writePath_appends (mkFieldPath ["a"; "b"]) "x = " true "a.b"). reflexivity.
Defined.

End FieldPathMore.

(** ** DependencyTracker: adding, removing, reporting *)

Module DependencyMore.
Import FieldPaths FieldPathFacts BSON Dependencies DependencyFacts.

Lemma tracker_eq (a b : DependencyTracker) :
  openSet a = openSet b -> map a = map b -> a = b.
Proof. destruct a, b. simpl. intros -> ->. reflexivity. Qed.

(** The dependency map after [addDependency]. *)
Lemma map_addDependency path pS t :
  map (addDependency path pS t)
  = <[path := mkTracker (match map t !! path with
                         | Some old => fieldPath old
                         | None => path
                         end) pS]> (map t).
Proof. unfold addDependency. destruct (map t !! path); reflexivity. Qed.

(** X9: adding a dependency that is there replaces its source and nothing
    else: after two additions of a path the tracker is as after the second
    alone, and the path is tracked for the later source. *)
Theorem addDependency_last_wins (path : FieldPath) (first later : DocumentSourcePtr)
    (t : DependencyTracker) :
  addDependency path later (addDependency path first t) = addDependency path later t /\
  getDependency path (addDependency path later (addDependency path first t)) = Some later /\
  dom (map (addDependency path later (addDependency path first t)))
  = dom (map (addDependency path first t)).
Proof.
  assert (Heq : addDependency path later (addDependency path first t)
                = addDependency path later t).
  { apply tracker_eq.
    - rewrite !openSet_addDependency. reflexivity.
    - rewrite !map_addDependency, lookup_insert_eq, insert_insert_eq.
      destruct (map t !! path); reflexivity. }
  split; [exact Heq|]. split.
  - apply getDependency_addDependency.
  - rewrite Heq, !dom_addDependency. reflexivity.
Qed.

(** X10: removing a path that is not tracked changes nothing; removing a
    path undoes its addition; a removed path has no source; and the other
    paths keep theirs. *)
Theorem removeDependency_laws (path : FieldPath) (t : DependencyTracker) :
  (map t !! path = None -> removeDependency path t = t) /\
  (forall pS, removeDependency path (addDependency path pS t) = removeDependency path t) /\
  (forall pS, map t !! path = None ->
              removeDependency path (addDependency path pS t) = t) /\
  getDependency path (removeDependency path t) = None /\
  (forall path', path <> path' ->
     getDependency path' (removeDependency path t) = getDependency path' t).
Proof.
  assert (Habsent : map t !! path = None -> removeDependency path t = t).
  { intros Hnone. apply tracker_eq; [reflexivity|]. simpl. apply delete_id, Hnone. }
  assert (Hundo : forall pS,
            removeDependency path (addDependency path pS t) = removeDependency path t).
  { intros pS. apply tracker_eq.
    - simpl. apply openSet_addDependency.
    - simpl. rewrite map_addDependency. apply delete_insert_eq. }
  split; [exact Habsent|]. split; [exact Hundo|]. split; [|split].
  - intros pS Hnone. rewrite Hundo. apply Habsent, Hnone.
  - unfold getDependency, removeDependency. simpl. rewrite lookup_delete_eq. reflexivity.
  - intros path' Hne. unfold getDependency, removeDependency. simpl.
    rewrite lookup_delete_ne by exact Hne. reflexivity.
Qed.

(** X11: additions of different paths do not depend on their order. *)
Theorem addDependency_commutes (path1 path2 : FieldPath) (pS1 pS2 : DocumentSourcePtr)
    (t : DependencyTracker) :
  path1 <> path2 ->
  addDependency path1 pS1 (addDependency path2 pS2 t)
  = addDependency path2 pS2 (addDependency path1 pS1 t).
Proof.
  intros Hne. apply tracker_eq.
  - rewrite !openSet_addDependency. reflexivity.
  - rewrite !map_addDependency.
    rewrite (lookup_insert_ne (map t) path2 path1) by congruence.
    rewrite (lookup_insert_ne (map t) path1 path2) by congruence.
    apply insert_insert_ne. exact Hne.
Qed.

Lemma addDependency_commutes_witness :
  addDependency (mkFieldPath ["a"]) 1 (addDependency (mkFieldPath ["b"]) 2 create)
  = addDependency (mkFieldPath ["b"]) 2 (addDependency (mkFieldPath ["a"]) 1 create).
Proof. apply addDependency_commutes. discriminate. Defined.





(** The rendering of a path with a segment. *)
Definition rendered (path : FieldPath) : string := dotted (vFieldName path).

Lemma appendPaths_rendered entries pBuilder :
  Forall (fun entry : FieldPath * Tracker => 1 <= getPathLength entry.1) entries ->
  appendPaths entries pBuilder
  = Ok (pBuilder ++ ((fun entry => (rendered entry.1, Bool true)) <$> entries))%list.
Proof.
  revert pBuilder. induction entries as [|[path dep] entries IH]; intros pBuilder Hall.
  - simpl. rewrite app_nil_r. reflexivity.
  - apply Forall_cons in Hall as [Hpath Hall]. simpl.
    destruct path as [[|f0 rest]]; [unfold getPathLength in Hpath; simpl in Hpath; lia|].
    change (writePath (mkFieldPath (f0 :: rest)) "" false)
      with (getPath (mkFieldPath (f0 :: rest)) false).
    rewrite getPath_dotted, IH by exact Hall.
    rewrite <- app_assoc. reflexivity.
Qed.

Lemma appendPaths_empty_path entries pBuilder dep :
  (FieldPath_default, dep) ∈ entries ->
  appendPaths entries pBuilder = Throw OutOfBounds.
Proof.
  revert pBuilder. induction entries as [|[path dep'] entries IH]; intros pBuilder Hin.
  - inversion Hin.
  - simpl. destruct path as [[|f0 rest]]; [reflexivity|].
    apply elem_of_cons in Hin as [[=]|Hin].
    unfold writePath. simpl. apply IH. exact Hin.
Qed.

(** X14: [buildSelectList] fails its [verify] on an open set.  On a closed
    set whose paths all have a segment it adds one field for each tracked
    path to the builder, named by the rendering of the path and holding
    [true], and keeps what the builder held; with the path without segments
    among the tracked ones it reads out of bounds. *)
Theorem buildSelectList_outcomes (pBuilder : list (string * BSONValue))
    (t : DependencyTracker) :
  (isClosedSet t = false -> buildSelectList pBuilder t = Throw AssertionFailure) /\
  (isClosedSet t = true ->
   (forall path, path ∈ dom (map t) -> 1 <= getPathLength path) ->
   exists fields,
     buildSelectList pBuilder t = Ok (pBuilder ++ fields)%list /\
     length fields = size (map t) /\
     (forall name v, (name, v) ∈ fields <->
        v = Bool true /\ exists path, path ∈ dom (map t) /\ rendered path = name)) /\
  (isClosedSet t = true -> FieldPath_default ∈ dom (map t) ->
   buildSelectList pBuilder t = Throw OutOfBounds).
Proof.
  unfold isClosedSet, buildSelectList. split; [|split].
  - intros Hopen. destruct (openSet t); [reflexivity|discriminate].
  - intros Hclosed Hpaths. rewrite Hclosed.
    exists ((fun entry => (rendered entry.1, Bool true)) <$> map_to_list (map t)).
    split; [|split].
    + apply appendPaths_rendered. apply Forall_forall. intros [path dep] Hin.
      apply Hpaths. apply elem_of_map_to_list in Hin. apply elem_of_dom. eauto.
    + rewrite length_fmap. apply length_map_to_list.
    + intros name v. rewrite list_elem_of_fmap. split.
      * intros ([path dep] & [= -> ->] & Hin). split; [reflexivity|].
        exists path. split; [|reflexivity].
        apply elem_of_map_to_list in Hin. apply elem_of_dom. eauto.
      * intros (-> & path & Hin & <-). apply elem_of_dom in Hin as [dep Hdep].
        exists (path, dep). split; [reflexivity|].
        apply elem_of_map_to_list. exact Hdep.
  - intros Hclosed Hin. rewrite Hclosed.
    apply elem_of_dom in Hin as [dep Hdep].
    apply (appendPaths_empty_path _ _ dep). apply elem_of_map_to_list. exact Hdep.
Qed.

End DependencyMore.

(** ** The match stage: what its dependency pass does to a tracker *)

Module MatchMore.
Import FieldPaths FieldPathFacts BSON Dependencies DependencyFacts Match MatchFacts.

(** A filter the visitor gets through: [$or] and [$and] hold arrays, and
    each operand is an element [Obj()] takes, at every depth. *)
Fixpoint visitable (filter : BSONObj) : bool :=
  match filter with
  | BSONObj_end => true
  | BSONObj_element key v rest =>
      (if isLogical key then
         match v with
         | Array operands => visitableOperands operands
         | _ => false
         end
       else true) && visitable rest
  end
with visitableOperands (operands : BSONObj) : bool :=
  match operands with
  | BSONObj_end => true
  | BSONObj_element _ operand rest =>
      match operand with
      | Object o | Array o => visitable o
      | _ => false
      end && visitableOperands rest
  end.

(** The exceptions of the dependency pass of a match stage. *)
Definition match_exception (e : Exception) : Prop :=
  e = AssertionFailure \/ e = NotAnObject \/ e = UserException 15998.

(** A run that returns exactly under [cond], whatever the tracker, and
    throws nothing but the exceptions above. *)
Definition returns_iff (run : M MatchTracker unit) (cond : Prop) : Prop :=
  forall s, ((run s).1 = Ok tt <-> cond) /\
            (forall e, (run s).1 = Throw e -> match_exception e).

Lemma returns_iff_ret : returns_iff (ret tt) True.
Proof. intros s. simpl. split; [tauto|discriminate]. Qed.

Lemma returns_iff_throw e : match_exception e -> returns_iff (throw e) False.
Proof.
  intros He s. simpl. split; [split; [discriminate|tauto]|].
  intros e' [= <-]. exact He.
Qed.

Lemma returns_iff_bind (m k : M MatchTracker unit) A B :
  returns_iff m A -> returns_iff k B -> returns_iff (bind m (fun _ => k)) (A /\ B).
Proof.
  intros Hm Hk s. unfold bind. destruct (Hm s) as [Hmok Hmex].
  destruct (m s) as [[[]|e] s1]; simpl in *.
  - destruct (Hk s1) as [Hkok Hkex]. split; [|exact Hkex].
    rewrite Hkok. tauto.
  - split; [|exact Hmex]. split; [discriminate|].
    intros [HA _]. apply Hmok in HA. discriminate.
Qed.

Lemma returns_iff_equiv (m : M MatchTracker unit) A B :
  (A <-> B) -> returns_iff m A -> returns_iff m B.
Proof. intros HAB Hm s. destruct (Hm s) as [Hok Hex]. split; [tauto|exact Hex]. Qed.

Lemma returns_iff_dependency key : returns_iff (dependency key) (validKey key).
Proof.
  intros s. unfold dependency, Tracker_dependency, validKey.
  rewrite FieldPath_of_string_segments.
  destruct (has_empty (removelast (segments key))); simpl.
  - split; [split; discriminate|]. intros e [= <-]. right. right. reflexivity.
  - split; [tauto|discriminate].
Qed.

Lemma visit_returns_iff :
  forall filter,
    returns_iff (visitDependencies filter)
      (visitable filter = true /\ Forall validKey (fieldKeys filter)) /\
    returns_iff (visitOperands filter)
      (visitableOperands filter = true /\ Forall validKey (clauseKeys filter)).
Proof.
  apply (BSONObj_mut
    (fun v => match v with
              | Object o | Array o =>
                  returns_iff (visitDependencies o)
                    (visitable o = true /\ Forall validKey (fieldKeys o)) /\
                  returns_iff (visitOperands o)
                    (visitableOperands o = true /\ Forall validKey (clauseKeys o))
              | _ => True
              end)); auto.
  - split; (eapply returns_iff_equiv; [|apply returns_iff_ret]); simpl;
      split; auto.
  - intros key v IHv rest [IHrest IHrest']. split.
    + change (visitDependencies (BSONObj_element key v rest))
        with (bind (if negb (isLogical key)
                    then (dependency key : M MatchTracker unit)
                    else match v with
                         | Array logicalOperands => visitOperands logicalOperands
                         | _ => throw AssertionFailure
                         end)
                (fun _ => visitDependencies rest)).
      simpl visitable. simpl fieldKeys.
      destruct (isLogical key) eqn:Hkey; simpl negb; cbv iota.
      * destruct v; simpl.
        1-4: (eapply returns_iff_equiv;
               [|apply returns_iff_bind;
                  [apply returns_iff_throw; left; reflexivity|exact IHrest]];
              split; [tauto|intros [[=] _]]).
        eapply returns_iff_equiv;
          [|apply returns_iff_bind; [apply IHv|exact IHrest]].
        rewrite andb_true_iff, Forall_app. tauto.
      * eapply returns_iff_equiv;
          [|apply returns_iff_bind; [apply returns_iff_dependency|exact IHrest]].
        simpl. rewrite Forall_cons. tauto.
    + simpl visitableOperands. simpl clauseKeys.
      destruct v.
      1-3: (eapply returns_iff_equiv;
             [|apply returns_iff_throw; right; left; reflexivity];
            simpl; split; [tauto|intros [[=] _]]).
      all: simpl;
           (eapply returns_iff_equiv;
             [|apply returns_iff_bind; [apply IHv|exact IHrest']]);
           rewrite andb_true_iff, Forall_app; tauto.
Qed.

Lemma manageDependencies_ok_iff this filter t :
  (manageDependencies this filter t).1 = Ok tt <->
  visitable filter = true /\ Forall validKey (fieldKeys filter).
Proof.
  unfold manageDependencies.
  destruct (proj1 (visit_returns_iff filter) (mkMatchTracker t this)) as [Hok _].
  destruct (visitDependencies filter (mkMatchTracker t this)) as [r s]. exact Hok.
Qed.

(** X15: the dependency pass of a match stage returns exactly on the
    filters whose [$or] and [$and] hold arrays of objects or arrays and
    whose field keys are valid paths, whatever the tracker holds; when it
    throws, it is the failed [verify], the failure of [Obj()], or error
    15998 of a field key. *)
Theorem manageDependencies_returns_iff
    (this : DocumentSourcePtr) (filter : BSONObj) (t : DependencyTracker) :
  ((manageDependencies this filter t).1 = Ok tt <->
   visitable filter = true /\ Forall validKey (fieldKeys filter)) /\
  (forall e, (manageDependencies this filter t).1 = Throw e -> match_exception e).
Proof.
  unfold manageDependencies.
  destruct (proj1 (visit_returns_iff filter) (mkMatchTracker t this)) as [Hok Hex].
  destruct (visitDependencies filter (mkMatchTracker t this)) as [r s]. exact (conj Hok Hex).
Qed.

Lemma pathsOf_app keys keys' : pathsOf (keys ++ keys') = (pathsOf keys ++ pathsOf keys')%list.
Proof. unfold pathsOf. apply omap_app. Qed.

(** What the pass has done to the tracker, in every outcome. *)
Lemma manageDependencies_registered this filter t :
  exists keys, keys `prefix_of` fieldKeys filter /\
               (manageDependencies this filter t).2 = registerAll this keys t /\
               ((manageDependencies this filter t).1 = Ok tt -> keys = fieldKeys filter).
Proof.
  unfold manageDependencies.
  destruct (proj1 (visit_any_outcome tracked Tracker_outcome filter)
              (mkMatchTracker t this))
    as (keys & Hprefix & Hs & Hok).
  destruct (visitDependencies filter (mkMatchTracker t this)) as [r s]. simpl in *.
  exists keys. split; [exact Hprefix|]. split; [|exact Hok].
  rewrite Hs, registered_tracked. reflexivity.
Qed.

(** X16: the dependency pass of a match stage only adds: whether it returns
    or throws, every path that was tracked is still tracked, the new paths
    are paths of field keys of the filter, the paths that are no path of a
    field key keep their source, and the set is as open or closed as it
    was. *)
Theorem manageDependencies_only_adds
    (this : DocumentSourcePtr) (filter : BSONObj) (t : DependencyTracker) :
  let t' := (manageDependencies this filter t).2 in
  dom (map t) ⊆ dom (map t') /\
  dom (map t') ⊆ dom (map t) ∪ list_to_set (pathsOf (fieldKeys filter)) /\
  (forall path, path ∉ pathsOf (fieldKeys filter) ->
     getDependency path t' = getDependency path t) /\
  openSet t' = openSet t.
Proof.
  destruct (manageDependencies_registered this filter t) as (keys & [rest Hrest] & -> & _).
  simpl. rewrite Hrest, pathsOf_app, dom_registerAll.
  split; [apply union_subseteq_l|]. split; [|split].
  - rewrite list_to_set_app_L. apply union_mono_l, union_subseteq_l.
  - intros path Hnin. apply getDependency_registerAll_other.
    intros Hin. apply Hnin. apply elem_of_app. left. exact Hin.
  - apply openSet_registerAll.
Qed.

Lemma addDependency_same path pS t dep :
  map t !! path = Some dep -> Dependencies.pSource dep = pS ->
  addDependency path pS t = t.
Proof.
  intros Hdep <-. unfold addDependency. rewrite Hdep.
  destruct t as [o m], dep as [fp src]. simpl in *. f_equal.
  apply insert_id. exact Hdep.
Qed.

Lemma registerAll_fixed this keys t :
  (forall path, path ∈ pathsOf keys -> getDependency path t = Some this) ->
  registerAll this keys t = t.
Proof.
  induction keys as [|key keys IH]; intros Hall; [reflexivity|].
  unfold registerAll in *. simpl.
  assert (Hkey : register this t key = t).
  { unfold register. destruct (FieldPath_of_string key) as [path|e] eqn:Hpath;
      [|reflexivity].
    assert (Hin : getDependency path t = Some this).
    { apply Hall. unfold pathsOf. simpl. rewrite Hpath. apply list_elem_of_here. }
    unfold getDependency in Hin. destruct (map t !! path) as [dep|] eqn:Hdep;
      [|discriminate].
    apply (addDependency_same _ _ _ dep); [exact Hdep|congruence]. }
  rewrite Hkey. apply IH. intros path Hin. apply Hall.
  unfold pathsOf in *. simpl. destruct (FieldPath_of_string key);
    [apply list_elem_of_further|]; exact Hin.
Qed.

(** X17: a dependency pass of a match stage that returned can be repeated
    on its result: it returns again and changes nothing. *)
Theorem manageDependencies_idempotent
    (this : DocumentSourcePtr) (filter : BSONObj) (t t' : DependencyTracker) :
  manageDependencies this filter t = (Ok tt, t') ->
  manageDependencies this filter t' = (Ok tt, t').
Proof.
  intros Hrun.
  destruct (manageDependencies_registered this filter t) as (keys & _ & Ht' & Hkeys).
  rewrite Hrun in Ht', Hkeys. simpl in *. rewrite (Hkeys eq_refl) in Ht'. clear Hkeys keys.
  assert (Hok : (manageDependencies this filter t').1 = Ok tt).
  { apply (manageDependencies_ok_iff this filter t').
    apply (manageDependencies_ok_iff this filter t). rewrite Hrun. reflexivity. }
  destruct (manageDependencies_registered this filter t') as (keys & _ & Ht'' & Hkeys).
  rewrite (Hkeys Hok) in Ht''.
  destruct (manageDependencies this filter t') as [r t'']. simpl in *. subst r t''.
  f_equal. apply registerAll_fixed. intros path Hin. rewrite Ht'.
  apply getDependency_registerAll. exact Hin.
Qed.

Lemma manageDependencies_idempotent_witness :
  manageDependencies 0 or_a_b (manageDependencies 0 or_a_b Dependencies.create).2
  = (Ok tt, (manageDependencies 0 or_a_b Dependencies.create).2).
Proof.
  apply (manageDependencies_idempotent 0 or_a_b Dependencies.create). reflexivity.
Defined.

End MatchMore.

(** ** DocumentSourceCursor: the report for explain *)

Module CursorExplain.
Import BSON CursorSource.

Section Explain.

(** [DBDirectClient::findOne(ns, query)], which can throw. *)
Variable findOne : string -> BSONObj -> result BSONObj.

(** The query [sourceToBson] builds for explain. *)
Definition explainQuery (query : BSONObj) (sort : option BSONObj) : BSONObj :=
  obj ([("$query", Object query)]
       ++ match sort with
          | Some order => [("$orderby", Object order)]
          | None => []
          end
       ++ [("$explain", NumberInt 1)])%list.

(** [DocumentSourceCursor::sourceToBson(pBuilder, explain)]; the builder is
    the list of the elements appended so far.  [*pQuery] and [*pSelect] are
    read through pointers that can be empty: [None] stands for such a read,
    where the source has no defined behaviour. *)
Definition sourceToBson (pBuilder : list (string * BSONValue)) (explain : bool)
    (this : DocumentSourceCursor) : option (result (list (string * BSONValue))) :=
  if explain then
    match pQuery this, pSelect this with
    | Some query, Some select =>
        let fields :=
          (pBuilder ++ [("query", Object query); ("select", Object select)]
           ++ match pSort this with
              | Some sort => [("sort", Object sort)]
              | None => []
              end)%list in
        match findOne (ns this) (explainQuery query (pSort this)) with
        | Ok explainResult => Some (Ok (fields ++ [("cursor", Object explainResult)])%list)
        | Throw e => Some (Throw e)
        end
    | _, _ => None
    end
  else Some (Ok pBuilder).

End Explain.

End CursorExplain.

(** ** DocumentSourceCursor: what fetching keeps *)

Module CursorMore.
Import BSON CursorSource CursorFacts CursorExplain.
Local Open Scope cxx_scope.

(** The calls that attach provenance to a cursor source. *)
Inductive provenance : Type :=
| SetNamespace (n : string)
| SetQuery (pBsonObj : BSONObj)
| SetSelect (pBsonObj : BSONObj)
| SetSort (pBsonObj : BSONObj)
| KeepAlive (pVoid : ParsedQuery).

Definition attach (a : provenance) (this : DocumentSourceCursor) : DocumentSourceCursor :=
  match a with
  | SetNamespace n => setNamespace n this
  | SetQuery pBsonObj => setQuery pBsonObj this
  | SetSelect pBsonObj => setSelect pBsonObj this
  | SetSort pBsonObj => setSort pBsonObj this
  | KeepAlive pVoid => keepAlive pVoid this
  end.

(** A call that does the same with and without the provenance attached. *)
Definition unaffected {A} (a : provenance) (m : M DocumentSourceCursor A) : Prop :=
  forall this, m (attach a this) = ((m this).1, attach a (m this).2).

Lemma unaffected_bind {A B} a (m : M DocumentSourceCursor A)
    (k : A -> M DocumentSourceCursor B) :
  unaffected a m -> (forall x, unaffected a (k x)) -> unaffected a (bind m k).
Proof.
  intros Hm Hk this. unfold bind. rewrite Hm.
  destruct (m this) as [[x|e] this1]; simpl; [apply Hk|reflexivity].
Qed.

Lemma unaffected_advanceAndYield a : unaffected a advanceAndYield.
Proof.
  intros this. unfold advanceAndYield.
  replace (pCursor (attach a this)) with (pCursor this) by (destruct a; reflexivity).
  destruct (yieldSometimes (Cursor_advance (pCursor this))) as [cursorOk c].
  destruct a; reflexivity.
Qed.

Lemma unaffected_accepts a position : unaffected a (accepts position).
Proof.
  intros this. unfold accepts.
  replace (pCursor (attach a this)) with (pCursor this) by (destruct a; reflexivity).
  destruct (match matcher (pCursor this) with Some pCIM => pCIM position | None => true end).
  - unfold getsetdup. destruct a; reflexivity.
  - reflexivity.
Qed.

Lemma unaffected_findNext_loop a fuel : unaffected a (findNext_loop fuel).
Proof.
  induction fuel as [|fuel IH]; intros this; simpl;
    replace (pCursor (attach a this)) with (pCursor this) by (destruct a; reflexivity).
  - destruct (positions (pCursor this)); destruct a; reflexivity.
  - destruct (positions (pCursor this)) as [|position later];
      [destruct a; reflexivity|].
    apply unaffected_bind; [apply unaffected_accepts|].
    intros [|]; apply unaffected_bind; intros;
      try apply unaffected_advanceAndYield; try exact IH.
    intros this'. unfold modify. destruct a; reflexivity.
Qed.

Lemma unaffected_findNext a : unaffected a findNext.
Proof.
  intros this. unfold findNext.
  replace (pCursor (attach a this)) with (pCursor this) by (destruct a; reflexivity).
  apply unaffected_findNext_loop.
Qed.

Lemma unaffected_fetchFirst a : unaffected a fetchFirst.
Proof.
  intros this. unfold fetchFirst.
  replace (pCurrent (attach a this)) with (pCurrent this) by (destruct a; reflexivity).
  destruct (pCurrent this); [reflexivity|apply unaffected_findNext].
Qed.

Lemma unaffected_current {A} a (f : option Document -> A) :
  unaffected a (bind get (fun this => ret (f (pCurrent this)))).
Proof. intros this. unfold bind, get, ret. destruct a; reflexivity. Qed.

(** X18: attaching provenance ([setNamespace], [setQuery], [setSelect],
    [setSort], [keepAlive]) changes nothing of what the cursor fetches:
    [findNext], [eof], [advance] and [getCurrent] return the same with it as
    without, and leave the same cursor but for the provenance. *)
Theorem provenance_does_not_affect_iteration (a : provenance) :
  unaffected a findNext /\ unaffected a eof /\
  unaffected a advance /\ unaffected a getCurrent.
Proof.
  split; [apply unaffected_findNext|]. split; [|split].
  - apply unaffected_bind; [apply unaffected_fetchFirst|].
    intros _. apply (unaffected_current a (fun d => match d with None => true | Some _ => false end)).
  - apply unaffected_bind.
    + intros this. unfold DocumentSource_advance.
      replace (pExpCtx (attach a this)) with (pExpCtx this) by (destruct a; reflexivity).
      destruct (interrupted (pExpCtx this)); reflexivity.
    + intros _. apply unaffected_bind; [apply unaffected_fetchFirst|].
      intros _. apply unaffected_bind; [apply unaffected_findNext|].
      intros _. apply (unaffected_current a (fun d => match d with None => false | Some _ => true end)).
  - apply unaffected_bind; [apply unaffected_fetchFirst|].
    intros _. apply (unaffected_current a (fun d => d)).
Qed.

(** A scan without positions. *)
Definition empty_scan_cursor : Cursor :=
  {| positions := []; matcher := None; dups := ∅; reacquired := [] |}.

(** What a call can change of a cursor source: the scan can only move on
    and remember more record identifiers, and only the current document
    changes beside it. *)
Record onward (this this' : DocumentSourceCursor) : Prop := mkOnward {
  onward_positions : positions (pCursor this') `suffix_of` positions (pCursor this);
  onward_dups : dups (pCursor this) ⊆ dups (pCursor this');
  onward_matcher : matcher (pCursor this') = matcher (pCursor this);
  onward_reacquired : reacquired (pCursor this') `suffix_of` reacquired (pCursor this);
  onward_pExpCtx : pExpCtx this' = pExpCtx this;
  onward_ns : ns this' = ns this;
  onward_pQuery : pQuery this' = pQuery this;
  onward_pSelect : pSelect this' = pSelect this;
  onward_pSort : pSort this' = pSort this;
  onward_pDependencies : pDependencies this' = pDependencies this;
  onward_pClientCursor : pClientCursor this' = pClientCursor this
}.

Lemma onward_refl this : onward this this.
Proof. constructor; reflexivity. Qed.

Lemma onward_trans this1 this2 this3 :
  onward this1 this2 -> onward this2 this3 -> onward this1 this3.
Proof.
  intros [] []. constructor; try congruence.
  - etrans; eassumption.
  - etrans; eassumption.
  - etrans; eassumption.
Qed.

Definition moves_onward {A} (m : M DocumentSourceCursor A) : Prop :=
  forall this, onward this (m this).2.

Lemma moves_onward_bind {A B} (m : M DocumentSourceCursor A)
    (k : A -> M DocumentSourceCursor B) :
  moves_onward m -> (forall x, moves_onward (k x)) -> moves_onward (bind m k).
Proof.
  intros Hm Hk this. unfold bind. specialize (Hm this).
  destruct (m this) as [[x|e] this1]; simpl in *; [|exact Hm].
  eapply onward_trans; [exact Hm|apply Hk].
Qed.

Lemma moves_onward_advanceAndYield : moves_onward advanceAndYield.
Proof.
  intros this. unfold advanceAndYield, yieldSometimes, Cursor_advance. simpl.
  destruct (reacquired (pCursor this)) as [|cursorOk later] eqn:Hre; simpl;
    constructor; simpl; try reflexivity;
    try (destruct (positions (pCursor this)); simpl;
         [reflexivity|apply suffix_cons_r; reflexivity]).
  - rewrite Hre. reflexivity.
  - rewrite Hre. apply suffix_cons_r. reflexivity.
Qed.

Lemma moves_onward_accepts position : moves_onward (accepts position).
Proof.
  intros this. unfold accepts, getsetdup.
  destruct (match matcher (pCursor this) with Some pCIM => pCIM position | None => true end);
    [|apply onward_refl].
  constructor; simpl; try reflexivity. apply union_subseteq_r.
Qed.

Lemma moves_onward_findNext_loop fuel : moves_onward (findNext_loop fuel).
Proof.
  induction fuel as [|fuel IH]; intros this; simpl.
  - destruct (positions (pCursor this)); [|apply onward_refl].
    constructor; reflexivity.
  - destruct (positions (pCursor this)) as [|position later] eqn:Hps.
    + constructor; simpl; rewrite ?Hps; reflexivity.
    + apply moves_onward_bind; [apply moves_onward_accepts|].
      intros [|]; apply moves_onward_bind; intros;
        try apply moves_onward_advanceAndYield; try exact IH.
      intros this'. unfold modify. constructor; reflexivity.
Qed.

Lemma moves_onward_findNext : moves_onward findNext.
Proof. intros this. apply moves_onward_findNext_loop. Qed.

Lemma moves_onward_fetchFirst : moves_onward fetchFirst.
Proof.
  intros this. unfold fetchFirst.
  destruct (pCurrent this); [apply onward_refl|apply moves_onward_findNext].
Qed.

Lemma moves_onward_current {A} (f : DocumentSourceCursor -> A) :
  moves_onward (bind get (fun this => ret (f this))).
Proof. intros this. apply onward_refl. Qed.

(** X19: a cursor source never goes back.  Whether [findNext], [eof],
    [advance] or [getCurrent] returns or throws, the positions left to the
    scan are a suffix of those it had, the record identifiers it remembers
    are still remembered, and the residual predicate, the context and the
    provenance are the same. *)
Theorem iteration_moves_onward :
  moves_onward findNext /\ moves_onward eof /\
  moves_onward advance /\ moves_onward getCurrent.
Proof.
  split; [apply moves_onward_findNext|]. split; [|split].
  - apply moves_onward_bind; [apply moves_onward_fetchFirst|].
    intros _. apply moves_onward_current.
  - apply moves_onward_bind.
    + intros this. unfold DocumentSource_advance.
      destruct (interrupted (pExpCtx this)); apply onward_refl.
    + intros _. apply moves_onward_bind; [apply moves_onward_fetchFirst|].
      intros _. apply moves_onward_bind; [apply moves_onward_findNext|].
      intros _. apply moves_onward_current.
  - apply moves_onward_bind; [apply moves_onward_fetchFirst|].
    intros _. apply moves_onward_current.
Qed.

(** A fetch that returns without a current document has used up the scan. *)
Lemma findNext_loop_end fuel this this' :
  length (positions (pCursor this)) <= fuel ->
  findNext_loop fuel this = (Ok tt, this') ->
  pCurrent this' = None -> positions (pCursor this') = [].
Proof.
  revert this. induction fuel as [|fuel IH]; intros this Hlen; simpl.
  - destruct (positions (pCursor this)) eqn:Hps; [|simpl in Hlen; lia].
    intros [= <-] _. exact Hps.
  - destruct (positions (pCursor this)) as [|position later] eqn:Hps.
    + intros [= <-] _. exact Hps.
    + unfold bind at 1.
      pose proof (moves_onward_accepts position this) as Hacc.
      destruct (accepts position this) as [[accepted|e] this0] eqn:Hrun;
        [|discriminate].
      assert (Hps0 : positions (pCursor this0) = position :: later).
      { unfold accepts, getsetdup in Hrun.
        destruct (match matcher (pCursor this) with Some _ => _ | None => _ end);
          injection Hrun as _ <-; exact Hps. }
      destruct accepted.
      * unfold bind, modify, advanceAndYield.
        destruct (yieldSometimes _) as [[] c]; [|discriminate].
        intros [= <-]. discriminate.
      * unfold bind.
        destruct (advanceAndYield this0) as [[[]|e] this1] eqn:Hadv; [|discriminate].
        apply IH. unfold advanceAndYield in Hadv.
        destruct (yieldSometimes _) as [cursorOk c] eqn:Hy.
        injection Hadv as _ <-. simpl.
        unfold yieldSometimes, Cursor_advance in Hy. simpl in Hy.
        destruct (reacquired (pCursor this0)); injection Hy as _ <-; simpl;
          rewrite Hps0; simpl in *; lia.
Qed.

Lemma exhausted_stays this :
  pCurrent this = None -> positions (pCursor this) = [] ->
  eof this = (Ok true, this) /\
  getCurrent this = (Ok None, this) /\
  (interrupted (pExpCtx this) = false -> advance this = (Ok false, this)).
Proof.
  intros Hcur Hps.
  assert (Hfind : findNext this = (Ok tt, this)).
  { unfold findNext. rewrite Hps. simpl. rewrite Hps.
    destruct this; simpl in *; subst; reflexivity. }
  split; [apply eof_exhausted; assumption|]. split.
  - unfold getCurrent, bind, fetchFirst. rewrite Hcur, Hfind. simpl. rewrite Hcur.
    reflexivity.
  - intros Hint. unfold advance, bind, DocumentSource_advance, fetchFirst.
    rewrite Hint, Hcur, Hfind, Hfind. simpl. rewrite Hcur. reflexivity.
Qed.

Lemma eof_returns this b this' :
  eof this = (Ok b, this') ->
  b = match pCurrent this' with None => true | Some _ => false end /\
  (pCurrent this' = None -> positions (pCursor this') = []).
Proof.
  unfold eof, bind, fetchFirst, get, ret.
  destruct (pCurrent this) as [d|] eqn:Hcur.
  - intros [= <- <-]. rewrite Hcur. split; [reflexivity|discriminate].
  - destruct (findNext this) as [[[]|e] this1] eqn:Hfind; [|discriminate].
    intros [= <- <-]. split; [reflexivity|].
    apply (findNext_loop_end _ _ _ (Nat.le_refl _) Hfind).
Qed.

(** X20: [eof] can be asked again: when it has returned, asking again gives
    the same answer and moves nothing, and [getCurrent] then returns the
    current document and moves nothing; the answer is true exactly when
    there is no current document. *)
Theorem eof_is_stable (this this' : DocumentSourceCursor) (b : bool) :
  eof this = (Ok b, this') ->
  (b = true <-> pCurrent this' = None) /\
  eof this' = (Ok b, this') /\
  getCurrent this' = (Ok (pCurrent this'), this').
Proof.
  intros Heof. apply eof_returns in Heof as [-> Hend].
  destruct (pCurrent this') as [d|] eqn:Hcur.
  - split; [split; discriminate|].
    unfold eof, getCurrent, bind, fetchFirst, get, ret. rewrite Hcur. simpl.
    rewrite Hcur. auto.
  - destruct (exhausted_stays this' Hcur (Hend eq_refl)) as (Heof & Hget & _).
    split; [tauto|]. split; assumption.
Qed.

Lemma eof_is_stable_witness :
  let this' := (eof (example_cursor [] false)).2 in
  (false = true <-> pCurrent this' = None) /\
  eof this' = (Ok false, this') /\
  getCurrent this' = (Ok (pCurrent this'), this').
Proof.
  apply (eof_is_stable (example_cursor [] false)). reflexivity.
Defined.

(** X21: once [eof] has returned true the cursor stays at its end: the scan
    has no position left, and [eof], [getCurrent] and, unless interrupted,
    [advance] return true, no document and false, without any change. *)
Theorem end_of_stream_is_final (this this' : DocumentSourceCursor) :
  eof this = (Ok true, this') ->
  positions (pCursor this') = [] /\
  eof this' = (Ok true, this') /\
  getCurrent this' = (Ok None, this') /\
  (interrupted (pExpCtx this') = false -> advance this' = (Ok false, this')).
Proof.
  intros Heof. apply eof_returns in Heof as [Hb Hend].
  destruct (pCurrent this') eqn:Hcur; [discriminate|].
  split; [exact (Hend eq_refl)|]. apply exhausted_stays; auto.
Qed.

Lemma end_of_stream_is_final_witness :
  let this' := (eof (set_pCursor empty_scan_cursor (example_cursor [] false))).2 in
  positions (pCursor this') = [] /\
  eof this' = (Ok true, this') /\
  getCurrent this' = (Ok None, this') /\
  (interrupted (pExpCtx this') = false -> advance this' = (Ok false, this')).
Proof.
  apply (end_of_stream_is_final (set_pCursor empty_scan_cursor (example_cursor [] false))).
  reflexivity.
Defined.

(** X22: [advance] as the first call on a cursor fetches twice: when nothing
    interrupts and no yield fails, it returns with the second qualifying
    record as the current one, and the first is never the current document
    of a call that returned. *)
Theorem advance_first_skips_a_record (this : DocumentSourceCursor) :
  pCurrent this = None ->
  interrupted (pExpCtx this) = false ->
  reacquires this ->
  exists this',
    advance this = (Ok (bool_decide (is_Some (pending this !! 1))), this') /\
    pCurrent this' = (fun position => createFromBsonObj position.2) <$> pending this !! 1.
Proof.
  intros Hcur Hint Hre.
  destruct (fetches_pending 1 this Hre) as (this' & Hrun & Hcur').
  exists this'. split; [|exact Hcur'].
  unfold advance, bind, DocumentSource_advance, fetchFirst. rewrite Hint, Hcur.
  simpl in Hrun. unfold bind, ret in Hrun.
  destruct (findNext this) as [[[]|e] this1]; [|discriminate].
  destruct (findNext this1) as [[[]|e] this2]; [|discriminate].
  injection Hrun as ->. simpl. rewrite Hcur'.
  destruct (pending this !! 1); reflexivity.
Qed.

Lemma advance_first_skips_a_record_witness :
  exists this',
    advance (example_cursor [] false) = (Ok true, this') /\
    pCurrent this' = Some (createFromBsonObj (record 4).2).
Proof.
  destruct (advance_first_skips_a_record (example_cursor [] false))
    as (this' & Hrun & Hcur).
  - reflexivity.
  - reflexivity.
  - constructor.
  - exists this'. split; [exact Hrun|exact Hcur].
Defined.

Section Explain.
Variable findOne : string -> BSONObj -> result BSONObj.


End Explain.

End CursorMore.

(** ** The planner: failures, acquisitions and the source it returns *)

Module PlannerMore.
Import FieldPaths BSON Dependencies CursorSource CursorExplain PipelineD PlannerFacts.

Section Planner.
Variable getCursor : string -> BSONObj -> option BSONObj -> option Cursor.
Variable manageOther :
  DocumentSource -> DocumentSourcePtr -> M DependencyTracker unit.

Abbreviation prepare := (prepareCursorSource getCursor manageOther).

Ltac planning_step :=
  match goal with
  | |- context [analyze ?f ?l] => destruct (analyze f l) as [[[]|?] ?] eqn:?
  | |- context [isClosedSet ?t] => destruct (isClosedSet t) eqn:?
  | |- context [buildSelectList ?b ?t] => destruct (buildSelectList b t) eqn:?
  | |- context [getCursor ?n ?q ?o] => destruct (getCursor n q o) eqn:?
  end.

Ltac planning :=
  unfold prepareCursorSource, bind, get, lift, erase_begin, modify, acquire, ret,
    getInitialQuery, create; simpl;
  repeat (planning_step; simpl).

(** X24: when the dependency analysis throws, planning throws the same
    exception with the pipeline as it was: no stage is removed and no scan
    is asked for. *)
Theorem prepareCursorSource_analysis_error
    (dbName : string) (pExpCtx : ExpressionContext) (p : Planning)
    (e : Exception) (tracker : DependencyTracker) :
  analyze manageOther (sourceVector p) = (Throw e, tracker) ->
  prepare dbName pExpCtx p = (Throw e, p).
Proof.
  intros Hdeps. unfold prepareCursorSource, bind, get. rewrite Hdeps.
  reflexivity.
Qed.

(** X25: when the storage layer has no scan for the filter, with or without
    an order, planning fails the [verify] of [create], after it has taken
    the leading filter stage off the pipeline and asked for the scan
    without an order last. *)
Theorem prepareCursorSource_without_scan
    (dbName : string) (pExpCtx : ExpressionContext) (p : Planning)
    (tracker : DependencyTracker) (selectList : list (string * BSONValue)) :
  analyze manageOther (sourceVector p) = (Ok tt, tracker) ->
  (if isClosedSet tracker then buildSelectList [] tracker else Ok []) = Ok selectList ->
  (forall order,
     getCursor (dbName ++ "." ++ collectionName p)%string
       (filterOf (sourceVector p)) order = None) ->
  exists p',
    prepare dbName pExpCtx p = (Throw AssertionFailure, p') /\
    sourceVector p' = afterMatch (sourceVector p) /\
    last (attempts p p')
    = Some (mkAcquisition (dbName ++ "." ++ collectionName p)%string
              (filterOf (sourceVector p)) None).
Proof.
  destruct p as [coll stages0 acqs]. unfold attempts. simpl.
  intros Hdeps Hsel Hnone.
  unfold prepareCursorSource, bind, get, lift. cbn [sourceVector collectionName].
  rewrite Hdeps. cbv beta iota. rewrite Hsel. cbv beta iota.
  destruct stages0 as [|[query|sortKey|name] [|[query'|sortKey'|name'] rest]];
    unfold erase_begin, modify, acquire, ret, getInitialQuery, create; simpl in *;
    rewrite ?Hnone; simpl; rewrite ?Hnone; simpl;
    eexists; (split; [reflexivity|]); simpl;
    rewrite <- ?app_assoc, ?drop_length_app; auto.
Qed.

(** X26: whatever the outcome, planning asks for at most two scans, for the
    collection's full name and the filter of the leading filter stage; when
    it asks twice, the first call has an order and was refused and the
    second has none; and it only adds to the calls made before. *)
Theorem prepareCursorSource_acquisitions
    (dbName : string) (pExpCtx : ExpressionContext) (p : Planning) :
  let p' := (prepare dbName pExpCtx p).2 in
  acquisitions p' = (acquisitions p ++ attempts p p')%list /\
  length (attempts p p') <= 2 /\
  Forall (fun a => acq_ns a = (dbName ++ "." ++ collectionName p)%string /\
                   acq_query a = filterOf (sourceVector p)) (attempts p p') /\
  (forall a b, attempts p p' = [a; b] ->
     acq_order a <> None /\ acq_order b = None /\
     getCursor (acq_ns a) (acq_query a) (acq_order a) = None) /\
  (forall a, attempts p p' = [a] -> acq_order a <> None ->
     is_Some (getCursor (acq_ns a) (acq_query a) (acq_order a))).
Proof.
  destruct p as [coll stages acqs]. unfold attempts. simpl.
  destruct stages as [|[query|sortKey|name] [|[query'|sortKey'|name'] rest]];
    planning;
    rewrite <- ?app_assoc, ?drop_length_app, ?drop_all, ?app_nil_r;
    (split; [reflexivity|]); (split; [simpl; lia|]);
    (split; [repeat constructor|]);
    (split; [intros x y [=]; subst; simpl; auto; repeat split; congruence
            |intros x [=]; subst; simpl; intros Horder;
             try congruence; eauto]).
Qed.

(** The cursor source planning builds from a scan. *)
Definition built (dbName : string) (pExpCtx : ExpressionContext)
    (fullName : string) (filter select : BSONObj) (order : option BSONObj)
    (scan : Cursor) : DocumentSourceCursor :=
  {| CursorSource.pExpCtx := pExpCtx; pCurrent := None; ns := fullName;
     pQuery := Some filter; pSelect := Some select; pSort := order;
     pCursor := scan;
     pDependencies := [mkParsedQuery fullName filter select];
     pClientCursor := mkClientCursor QueryOption_NoCursorTimeout dbName |}.

Lemma prepareCursorSource_built dbName pExpCtx p p' pSource :
  prepare dbName pExpCtx p = (Ok pSource, p') ->
  exists select order scan,
    pSource = built dbName pExpCtx (dbName ++ "." ++ collectionName p)%string
                (filterOf (sourceVector p)) select order scan /\
    getCursor (dbName ++ "." ++ collectionName p)%string
      (filterOf (sourceVector p)) order = Some scan /\
    (isClosedSet (analyze manageOther (sourceVector p)).2 = false ->
     select = BSONObj_end).
Proof.
  destruct p as [coll stages acqs]. simpl.
  destruct stages as [|[query|sortKey|name] [|[query'|sortKey'|name'] rest]];
    planning; intros [= <- <-] || (intros [=]);
    eexists _, _, _; (split; [reflexivity|]); split; eauto; discriminate.
Qed.

(** X27: the source planning returns holds the scan [getCursor] gave for
    the order the source records as its sort, and for no order when it
    records none; it has no current document; it keeps the parsed query of
    its namespace, filter and select-list alive; its client cursor is
    registered under the database name, its namespace is the collection's
    full name; and its select-list is empty when the dependency set is
    open. *)
Theorem prepareCursorSource_source
    (dbName : string) (pExpCtx : ExpressionContext) (p p' : Planning)
    (pSource : DocumentSourceCursor) :
  prepare dbName pExpCtx p = (Ok pSource, p') ->
  let fullName := (dbName ++ "." ++ collectionName p)%string in
  let filter := filterOf (sourceVector p) in
  getCursor fullName filter (pSort pSource) = Some (pCursor pSource) /\
  pCurrent pSource = None /\
  CursorSource.pExpCtx pSource = pExpCtx /\
  ns pSource = fullName /\
  cc_ns (pClientCursor pSource) = dbName /\
  pQuery pSource = Some filter /\
  (exists select,
     pSelect pSource = Some select /\
     pDependencies pSource = [mkParsedQuery fullName filter select] /\
     (isClosedSet (analyze manageOther (sourceVector p)).2 = false ->
      select = BSONObj_end)).
Proof.
  intros Hrun.
  destruct (prepareCursorSource_built _ _ _ _ _ Hrun)
    as (select & order & scan & -> & Hscan & Hopen).
  simpl. repeat split; eauto.
Qed.

Section Explained.
Variable findOne : string -> BSONObj -> result BSONObj.

(** X28: on the source planning returns, [sourceToBson] with explain on
    reads no empty pointer: it asks [findOne] for the collection's full name
    and the query made of the fused filter and the fused sort, and returns
    what that gives. *)
Theorem prepareCursorSource_can_explain
    (dbName : string) (pExpCtx : ExpressionContext) (p p' : Planning)
    (pSource : DocumentSourceCursor) (pBuilder : list (string * BSONValue)) :
  prepare dbName pExpCtx p = (Ok pSource, p') ->
  exists report,
    sourceToBson findOne pBuilder true pSource = Some report /\
    (forall e,
       findOne (dbName ++ "." ++ collectionName p)%string
         (explainQuery (filterOf (sourceVector p)) (pSort pSource)) = Throw e ->
       report = Throw e) /\
    (forall explainResult,
       findOne (dbName ++ "." ++ collectionName p)%string
         (explainQuery (filterOf (sourceVector p)) (pSort pSource)) = Ok explainResult ->
       exists fields,
         report = Ok (pBuilder ++ fields ++ [("cursor", Object explainResult)])%list /\
         fields.*1 = (["query"; "select"]
                      ++ match pSort pSource with Some _ => ["sort"] | None => [] end)%list).
Proof.
  intros Hrun.
  destruct (prepareCursorSource_built _ _ _ _ _ Hrun)
    as (select & order & scan & -> & Hscan & Hopen).
  unfold sourceToBson. simpl.
  destruct (findOne _ _) as [explainResult|e0] eqn:Hfind;
    (eexists; split; [reflexivity|]); split.
  - discriminate.
  - intros doc [= <-].
    exists (("query", Object (filterOf (sourceVector p)))
            :: ("select", Object select)
            :: match order with
               | Some sort => [("sort", Object sort)]
               | None => []
               end).
    split; [rewrite (app_assoc pBuilder); reflexivity|].
    destruct order; reflexivity.
  - intros e' [= <-]. reflexivity.
  - discriminate.
Qed.

End Explained.

End Planner.

Lemma prepareCursorSource_analysis_error_witness :
  prepareCursorSource indexed_getCursor example_manageOther "db"
    (mkExpressionContext false)
    {| collectionName := "c";
       sourceVector := [DocumentSourceMatch (obj [("a..b", NumberInt 1)])];
       acquisitions := [] |}
  = (Throw (UserException 15998),
     {| collectionName := "c";
        sourceVector := [DocumentSourceMatch (obj [("a..b", NumberInt 1)])];
        acquisitions := [] |}).
Proof.
  apply (prepareCursorSource_analysis_error indexed_getCursor example_manageOther
           "db" (mkExpressionContext false) _ (UserException 15998) Dependencies.create).
  reflexivity.
Defined.

Lemma prepareCursorSource_without_scan_witness :
  exists p',
    prepareCursorSource (fun _ _ _ => None) example_manageOther "db"
      (mkExpressionContext false) example_planning = (Throw AssertionFailure, p') /\
    sourceVector p' = [DocumentSourceSort (obj [("b", NumberInt 1)]);
                       DocumentSourceOther "$group"] /\
    last (acquisitions p') = Some (mkAcquisition "db.c" (obj [("a", NumberInt 1)]) None).
Proof.
  destruct (prepareCursorSource_without_scan (fun _ _ _ => None) example_manageOther
              "db" (mkExpressionContext false) example_planning
              (analyze example_manageOther example_stages).2 [("a", Bool true)])
    as (p' & Hrun & Hstages & Hlast).
  - reflexivity.
  - vm_compute. reflexivity.
  - reflexivity.
  - exists p'. split; [exact Hrun|]. split; [exact Hstages|].
    unfold attempts in Hlast. simpl in Hlast. rewrite drop_0 in Hlast. exact Hlast.
Defined.

Lemma prepareCursorSource_source_witness :
  let pSource :=
    match (prepareCursorSource indexed_getCursor example_manageOther "db"
             (mkExpressionContext false) example_planning).1 with
    | Ok pSource => Some pSource
    | Throw _ => None
    end in
  (cc_ns ∘ pClientCursor) <$> pSource = Some "db" /\
  ns <$> pSource = Some "db.c" /\
  pDependencies <$> pSource
  = Some [mkParsedQuery "db.c" (obj [("a", NumberInt 1)]) (obj [("a", Bool true)])].
Proof.
  destruct (prepareCursorSource indexed_getCursor example_manageOther "db"
              (mkExpressionContext false) example_planning) as [r p'] eqn:Hrun.
  assert (Hr : exists pSource, r = Ok pSource)
    by (vm_compute in Hrun; injection Hrun as <- _; eauto).
  destruct Hr as [pSource ->].
  destruct (prepareCursorSource_source indexed_getCursor example_manageOther "db"
              (mkExpressionContext false) example_planning p' pSource Hrun)
    as (_ & _ & _ & Hns & Hcc & _ & select & Hsel & Hdeps & _).
  simpl. rewrite Hcc, Hns, Hdeps.
  vm_compute in Hrun. injection Hrun as Hsrc _. rewrite <- Hsrc in Hsel.
  simpl in Hsel. injection Hsel as <-. auto.
Defined.

Lemma prepareCursorSource_can_explain_witness :
  exists pSource report,
    (prepareCursorSource indexed_getCursor example_manageOther "db"
       (mkExpressionContext false) example_planning).1 = Ok pSource /\
    sourceToBson (fun _ query => Ok query) [] true pSource = Some report.
Proof.
  destruct (prepareCursorSource indexed_getCursor example_manageOther "db"
              (mkExpressionContext false) example_planning) as [r p'] eqn:Hrun.
  assert (Hr : exists pSource, r = Ok pSource)
    by (vm_compute in Hrun; injection Hrun as <- _; eauto).
  destruct Hr as [pSource ->].
  destruct (prepareCursorSource_can_explain indexed_getCursor example_manageOther
              (fun _ query => Ok query) "db" (mkExpressionContext false)
              example_planning p' pSource [] Hrun) as (report & Hreport & _).
  exists pSource, report. split; [reflexivity|exact Hreport].
Defined.

End PlannerMore.
